(** * PyBaMM experiment protocol: a shallow embedding of
      [pybamm/experiment/experiment.py] and the properties of its
      constructor, termination parser, tag search and copy.

    Python objects live in an explicit store (a list of [Step.t]; an object's
    identity is its index), exceptions are an error monad.  A [dict] is a
    [gmap] over what [__hash__] and [__eq__] see of its keys; a [set] of
    objects is the [gset] of the objects it holds, the first of each class
    of equal objects it was given. *)

From Stdlib Require Import Ascii String QArith Sorted.
From stdpp Require Import base option list strings pretty gmap sets fin_maps.

Local Open Scope string_scope.

(** ** Exceptions *)

Inductive exn :=
  | ValueError (msg : string)
  | TypeError (msg : string)
  | IndexError (msg : string)
  | KeyError (msg : string).

Inductive result (A : Type) :=
  | Ok (a : A)
  | Raise (e : exn).
Arguments Ok {A} a.
Arguments Raise {A} e.

#[global] Instance result_ret : MRet result := fun _ a => Ok a.
#[global] Instance result_bind : MBind result := fun _ _ f m =>
  match m with
  | Ok a => f a
  | Raise e => Raise e
  end.

Definition is_Ok {A} (r : result A) : Prop := ∃ a, r = Ok a.

(** ** The [str] methods the module calls

    Text is ASCII: a [string] is the sequence of its characters. *)

Module Str.

Definition chars (s : string) : list ascii := list_ascii_of_string s.
Definition of_chars (l : list ascii) : string := string_of_list_ascii l.

(** [str.isspace] on one ASCII character: tab, line feed, vertical tab, form
    feed, carriage return, the four separators 28 to 31, and the space. *)
Definition isspace (c : ascii) : bool :=
  let n := nat_of_ascii c in
  ((9 <=? n)%nat && (n <=? 13)%nat) || ((28 <=? n)%nat && (n <=? 32)%nat).

Definition isdigit (c : ascii) : bool :=
  let n := nat_of_ascii c in (48 <=? n)%nat && (n <=? 57)%nat.

Definition ascii_eqb (a b : ascii) : bool := Ascii.eqb a b.

(** [s.startswith(p)] on character lists. *)
Fixpoint starts (p s : list ascii) : bool :=
  match p, s with
  | [], _ => true
  | x :: p', y :: s' => ascii_eqb x y && starts p' s'
  | _ :: _, [] => false
  end.

(** [s.endswith(suffix)] *)
Definition endswith (s suffix : string) : bool :=
  starts (rev (chars suffix)) (rev (chars s)).

(** [sub in s] *)
Fixpoint contains_chars (sub s : list ascii) : bool :=
  starts sub s ||
  match s with
  | [] => false
  | _ :: s' => contains_chars sub s'
  end.

Definition contains (sub s : string) : bool := contains_chars (chars sub) (chars s).

(** [s.split(sep)] for a non-empty [sep]: the pieces between the
    non-overlapping occurrences of [sep], found from the left.  [skip] counts
    the characters of a matched separator still to be passed over, [cur] is
    the current piece, reversed. *)
Fixpoint split_go (sep s : list ascii) (skip : nat) (cur : list ascii)
  : list string :=
  match s with
  | [] => [of_chars (rev cur)]
  | c :: s' =>
      match skip with
      | S k => split_go sep s' k cur
      | O =>
          if starts sep s
          then of_chars (rev cur) :: split_go sep s' (length sep - 1) []
          else split_go sep s' 0 (c :: cur)
      end
  end.

Definition split (s sep : string) : list string :=
  split_go (chars sep) (chars s) 0 [].

(** [s.split()] with no argument: the maximal runs of non-whitespace. *)
Fixpoint split_ws_go (s : list ascii) (cur : option (list ascii)) : list string :=
  match s with
  | [] =>
      match cur with
      | Some w => [of_chars (rev w)]
      | None => []
      end
  | c :: s' =>
      if isspace c then
        match cur with
        | Some w => of_chars (rev w) :: split_ws_go s' None
        | None => split_ws_go s' None
        end
      else split_ws_go s' (Some (c :: default [] cur))
  end.

Definition split_ws (s : string) : list string := split_ws_go (chars s) None.

(** [sep.join(l)] with the empty separator. *)
Definition join (l : list string) : string := fold_right String.append "" l.

(** [s[0:-1]]: all but the last character (the empty string stays empty). *)
Definition drop_last (s : string) : string := of_chars (removelast (chars s)).

(** [s.lower()] on one ASCII character. *)
Definition lower (c : ascii) : ascii :=
  let n := nat_of_ascii c in
  if (65 <=? n)%nat && (n <=? 90)%nat then ascii_of_nat (n + 32) else c.

(** [s.replace(old, new)] for a non-empty [old]; it returns a new string,
    [s] itself is immutable. *)
Definition replace (s old new : string) : string :=
  match split s old with
  | [] => ""
  | p :: ps => fold_left (fun acc piece => acc ++ new ++ piece) ps p
  end.

(** [repr(s)] of an ASCII text: the text between single quotes, or between
    double quotes when it holds a single quote and no double quote.  A
    backslash and the quote in use are written after a backslash; tab, line
    feed and carriage return as [\t], [\n] and [\r]; any other character
    that does not print (below 32, or from 127 on) as [\x] and two
    hexadecimal digits. *)
Definition backslash : ascii := "092"%char.
Definition single_quote : ascii := "039"%char.
Definition double_quote : ascii := "034"%char.

Definition hex_digit (n : nat) : ascii :=
  ascii_of_nat (if (n <? 10)%nat then 48 + n else 87 + n).

Definition repr_char (quote c : ascii) : list ascii :=
  let n := nat_of_ascii c in
  if ascii_eqb c quote || ascii_eqb c backslash then [backslash; c]
  else if (n =? 9)%nat then [backslash; "t"%char]
  else if (n =? 10)%nat then [backslash; "n"%char]
  else if (n =? 13)%nat then [backslash; "r"%char]
  else if (n <? 32)%nat || (127 <=? n)%nat
    then [backslash; "x"%char; hex_digit (n / 16); hex_digit (n mod 16)]
  else [c].

Definition repr (s : string) : string :=
  let l := chars s in
  let quote :=
    if existsb (ascii_eqb single_quote) l && negb (existsb (ascii_eqb double_quote) l)
    then double_quote else single_quote in
  of_chars (quote :: flat_map (repr_char quote) l ++ [quote])%list.

End Str.

(** ** The builtin [float] on a string

    [float(s)] passes over whitespace at the two ends, takes an optional
    sign, then [inf], [infinity] or [nan] in any case, or a decimal numeral:
    digits, an optional fraction and an optional exponent, single underscores
    allowed between digits.  A text it cannot read raises [ValueError] with a
    message that ends in the [repr] of the text.  The value of a numeral is
    the binary64 number nearest to it, ties to even, kept as the rational it
    is, in lowest terms; a numeral too large overflows to an infinity.  The
    sign of zero is not kept. *)

Module Float.

Inductive t :=
  | Num (q : Q)
  | Inf (negative : bool)
  | NaN.

(** The whitespace [float] passes over in an ASCII text: tab, line feed,
    vertical tab, form feed, carriage return and space.  The separators 28
    to 31, whitespace for [str.split], are not among them: [float] refuses a
    text that holds one. *)
Definition isspace (c : ascii) : bool :=
  let n := nat_of_ascii c in
  ((9 <=? n)%nat && (n <=? 13)%nat) || (n =? 32)%nat.

Fixpoint lstrip (l : list ascii) : list ascii :=
  match l with
  | [] => []
  | c :: l' => if isspace c then lstrip l' else l
  end.

Definition strip (l : list ascii) : list ascii :=
  rev (lstrip (rev (lstrip l))).

Definition underscore : ascii := "_"%char.

(** Every underscore has a digit before it and a digit after it. *)
Fixpoint underscores_ok (prev : option ascii) (l : list ascii) : bool :=
  match l with
  | [] => true
  | c :: l' =>
      (if Str.ascii_eqb c underscore then
         match prev, l' with
         | Some p, n :: _ => Str.isdigit p && Str.isdigit n
         | _, _ => false
         end
       else true) && underscores_ok (Some c) l'
  end.

Fixpoint span_digits (l : list ascii) : list ascii * list ascii :=
  match l with
  | c :: l' =>
      if Str.isdigit c then let '(d, r) := span_digits l' in (c :: d, r)
      else ([], l)
  | [] => ([], [])
  end.

Definition digit_val (c : ascii) : Z := Z.of_nat (nat_of_ascii c - 48).

Definition digits_val (l : list ascii) : Z :=
  fold_left (fun acc c => 10 * acc + digit_val c)%Z l 0%Z.

Definition sign (l : list ascii) : bool * list ascii :=
  match l with
  | c :: l' =>
      if Str.ascii_eqb c "-"%char then (true, l')
      else if Str.ascii_eqb c "+"%char then (false, l')
      else (false, l)
  | [] => (false, [])
  end.

(** [m * 10^e] as a rational in lowest terms. *)
Definition scale (m e : Z) : Q :=
  if (0 <=? e)%Z then Qmake (m * 10 ^ e) 1
  else Qred (Qmake m (Z.to_pos (10 ^ (- e)))).

Definition numeral (l : list ascii) : option Q :=
  let '(ip, r1) := span_digits l in
  let '(fp, r2) :=
    match r1 with
    | c :: r => if Str.ascii_eqb c "."%char then span_digits r else ([], r1)
    | [] => ([], r1)
    end in
  match (ip ++ fp)%list with
  | [] => None
  | m =>
      let frac := Z.of_nat (length fp) in
      match r2 with
      | [] => Some (scale (digits_val m) (- frac))
      | c :: r3 =>
          if Str.ascii_eqb (Str.lower c) "e"%char then
            let '(neg, r4) := sign r3 in
            match span_digits r4 with
            | ((_ :: _) as ep, []) =>
                let e := digits_val ep in
                Some (scale (digits_val m) ((if neg then - e else e) - frac))
            | _ => None
            end
          else None
      end
  end.

(** [2^e] for an integer [e]. *)
Definition pow2 (e : Z) : Q :=
  if (0 <=? e)%Z then inject_Z (2 ^ e) else Qmake 1 (Z.to_pos (2 ^ (- e))).

(** The integer nearest to a rational that is not negative, a tie going to
    the even one. *)
Definition nearest_even (q : Q) : Z :=
  let n := Qnum q in
  let d := Zpos (Qden q) in
  let f := (n / d)%Z in
  let r := (2 * (n mod d))%Z in
  if (r <? d)%Z then f
  else if (d <? r)%Z then (f + 1)%Z
  else if Z.even f then f else (f + 1)%Z.

(** [floor (log2 q)] for a positive rational. *)
Definition ilog2 (q : Q) : Z :=
  let e := (Z.log2 (Qnum q) - Z.log2 (Zpos (Qden q)))%Z in
  if Qle_bool (pow2 e) q then e else (e - 1)%Z.

(** The binary64 number nearest to a rational, ties to even: a significand
    of 53 bits and exponents down to the subnormal [2^-1074]; a value that
    rounds to [2^1024] overflows to an infinity. *)
Definition binary64 (q : Q) : t :=
  if Qeq_bool q 0 then Num 0
  else
    let a := if Qle_bool 0 q then q else Qopp q in
    let e := Z.max (ilog2 a - 52) (-1074) in
    let m := nearest_even (a / pow2 e) in
    let v := (inject_Z m * pow2 e)%Q in
    if Qle_bool (pow2 1024) v then Inf (negb (Qle_bool 0 q))
    else Num (Qred (if Qle_bool 0 q then v else - v)).

(** What the text says once the whitespace at its ends is gone. *)
Definition parse (l : list ascii) : option t :=
  if underscores_ok None l then
    let l := filter (λ c, c ≠ underscore) l in
    let '(neg, r) := sign l in
    let word := Str.of_chars (map Str.lower r) in
    if String.eqb word "inf" || String.eqb word "infinity" then Some (Inf neg)
    else if String.eqb word "nan" then Some NaN
    else (λ q : Q, binary64 (if neg then Qopp q else q)) <$> numeral r
  else None.

Definition of_string (s : string) : result t :=
  match parse (strip (Str.chars s)) with
  | Some v => Ok v
  | None => Raise (ValueError ("could not convert string to float: " ++ Str.repr s))
  end.

End Float.

Definition float (s : string) : result Float.t := Float.of_string s.

(** ** Steps and the object store *)

Module Step.

(** Modelled from the spec: the step class is defined in [steps.py], which is
    not part of the sources at hand.  A step is built from a description of
    its operation (rate, cutoff, duration), which stays as it is and is
    opaque to the experiment; the experiment reads and writes [period] and
    [temperature], each [None] until resolved.  Steps are compared and
    hashed by value: two step objects are equal when they were built from
    the same description, whatever has since been written to their period
    and temperature. *)
Record t := mk {
  operation : string;
  period : option Q;
  temperature : option Q;
}.

Definition set_period (v : option Q) (s : t) : t :=
  {| operation := operation s; period := v; temperature := temperature s |}.

Definition set_temperature (v : option Q) (s : t) : t :=
  {| operation := operation s; period := period s; temperature := v |}.

(** A step with the experiment-wide values taken for the fields it leaves
    unset. *)
Definition with_defaults (default_period default_temperature : option Q) (s : t) : t :=
  {| operation := operation s;
     period := if period s is Some v then Some v else default_period;
     temperature := if temperature s is Some v then Some v else default_temperature |}.

End Step.

(** An object reference is the index of the object in the store; a new
    object goes at the end, so references already handed out stay valid. *)
Abbreviation ref := nat (only parsing).
Abbreviation heap := (list Step.t) (only parsing).

Definition alloc (s : Step.t) (h : heap) : ref * heap := (length h, (h ++ [s])%list).

(** One raw instruction: text, or a step object built by the caller, given
    by its reference.  Two instructions are the same when they are the same
    text or the same object. *)
Inductive instruction :=
  | Text (s : string)
  | Prebuilt (r : ref).

#[global] Instance instruction_eq_dec : EqDecision instruction.
Proof. solve_decision. Defined.

#[global] Instance instruction_countable : Countable instruction.
Proof.
  refine (inj_countable'
    (λ i, match i with Text s => inl s | Prebuilt r => inr r end)
    (λ x, match x with inl s => Text s | inr r => Prebuilt r end) _).
  by intros [].
Defined.

(** Modelled from the spec: steps are compared by value (the step class is
    not at hand).  An [eq_key] is what [__eq__] and [__hash__] go by, and
    with them [set] and [dict]: for a text its characters, for a step the
    description it was built from; a text is never equal to a step.  A
    reference that names no object of the store stands for itself. *)
Inductive eq_key :=
  | OfText (s : string)
  | OfStep (operation : string)
  | OfObject (r : ref).

#[global] Instance eq_key_eq_dec : EqDecision eq_key.
Proof. solve_decision. Defined.

#[global] Instance eq_key_countable : Countable eq_key.
Proof.
  refine (inj_countable'
    (λ i, match i with
          | OfText s => inl s
          | OfStep o => inr (inl o)
          | OfObject r => inr (inr r)
          end)
    (λ x, match x with
          | inl s => OfText s
          | inr (inl o) => OfStep o
          | inr (inr r) => OfObject r
          end) _).
  by intros [].
Defined.

Definition step_key (h : heap) (r : ref) : eq_key :=
  match h !! r with
  | Some st => OfStep (Step.operation st)
  | None => OfObject r
  end.

Definition key_of (h : heap) (x : instruction) : eq_key :=
  match x with
  | Text s => OfText s
  | Prebuilt r => step_key h r
  end.

(** [set(l)]: of the objects of [l] that are equal to one another, a set
    keeps the one that was added first.  [py_set key l] lists the objects
    kept, in the order of [l]; [seen] is what the objects kept so far look
    like to [__eq__]. *)
Fixpoint py_set_go {A K} `{EqDecision K} (key : A → K) (seen : list K) (l : list A)
  : list A :=
  match l with
  | [] => []
  | x :: l' =>
      if decide (key x ∈ seen) then py_set_go key seen l'
      else x :: py_set_go key (key x :: seen) l'
  end.

Definition py_set {A K} `{EqDecision K} (key : A → K) (l : list A) : list A :=
  py_set_go key [] l.

(** One element of [operating_conditions]: a single instruction, or a tuple
    of instructions forming a cycle ([isinstance(cycle, tuple)]). *)
Inductive condition :=
  | Single (i : instruction)
  | Tuple (t : list instruction).

(** The [termination] argument, when not [None]: a string or a list. *)
Inductive termination_arg :=
  | TermStr (s : string)
  | TermList (l : list string).

(** A value passed for one of the two retired arguments. *)
Inductive pyvalue :=
  | PyStr (s : string)
  | PyNum (q : Q)
  | PyBool (b : bool)
  | PyObj (r : ref).

(** ** What the module imports *)

(** [pybamm.experiment.string], [_convert_time_to_seconds] and
    [_convert_temperature_to_kelvin] come from [steps.py]; their code is not
    at hand, so they are parameters.  The grammar is a pure function of the
    text that yields the fields of a new step or raises; each conversion
    yields a number or [None], or raises. *)
Class Collaborators := {
  experiment_string : string → result Step.t;
  _convert_time_to_seconds : option string → result (option Q);
  _convert_temperature_to_kelvin : option Q → result (option Q);
}.

(** The order in which a [for] loop visits a [set] is the interpreter's
    choice: any enumeration of the elements, each once. *)
Class PyRuntime := {
  set_iter : ∀ `{Countable A}, gset A → list A;
  set_iter_perm : ∀ `{Countable A} (X : gset A), set_iter X ≡ₚ elements X;
}.

Definition elements_runtime : PyRuntime :=
  {| set_iter := λ A _ _ X, elements X;
     set_iter_perm := λ A _ _ X, reflexivity (elements X) |}.

(** ** The class [Experiment] *)

Module Experiment.

Definition capacity_format_error : exn :=
  ValueError "Capacity termination must be given in the form '80%', '4Ah', or '4A.h'".

Definition termination_kind_error : exn :=
  ValueError "Only capacity or voltage can be provided as a termination reason, e.g. '80% capacity', '4 Ah capacity', or '2.5 V'".

Definition cccv_handling_error : exn :=
  ValueError "cccv_handling has been deprecated, use `pybamm.experiment.cccv_ode(current, voltage)` instead to produce the same behavior as the old `cccv_handling='ode'`".

Definition drive_cycles_error : exn :=
  ValueError "drive_cycles should now be passed as an experiment step object, e.g. `pybamm.experiment.current(drive_cycle)`".

(** [l[0]] *)
Definition first (l : list string) : result string :=
  match l with
  | x :: _ => Ok x
  | [] => Raise (IndexError "list index out of range")
  end.

(** The body of the loop of [read_termination], for one [term]. *)
Definition read_term (term : string) (termination_dict : gmap string (Float.t * string))
  : result (gmap string (Float.t * string)) :=
  let term_list := Str.split_ws term in
  match last term_list with
  | None => Raise (IndexError "list index out of range")
  | Some w =>
      if String.eqb w "capacity" then
        let end_discharge := Str.join (removelast term_list) in
        (* the value of [end_discharge.replace] is dropped by the source *)
        let _ := Str.replace end_discharge "A.h" "Ah" in
        if Str.endswith end_discharge "%" then
          end_discharge_percent ← first (Str.split end_discharge "%");
          v ← float end_discharge_percent;
          Ok (<["capacity" := (v, "%")]> termination_dict)
        else if Str.endswith end_discharge "Ah" then
          end_discharge_Ah ← first (Str.split end_discharge "Ah");
          v ← float end_discharge_Ah;
          Ok (<["capacity" := (v, "Ah")]> termination_dict)
        else Raise capacity_format_error
      else if Str.endswith term "V" then
        end_discharge_V ← first (Str.split term "V");
        v ← float end_discharge_V;
        Ok (<["voltage" := (v, "V")]> termination_dict)
      else Raise termination_kind_error
  end.

Fixpoint read_terms (termination : list string)
    (termination_dict : gmap string (Float.t * string))
  : result (gmap string (Float.t * string)) :=
  match termination with
  | [] => Ok termination_dict
  | term :: rest =>
      d ← read_term term termination_dict;
      read_terms rest d
  end.

Definition read_termination (termination : option termination_arg)
  : result (gmap string (Float.t * string)) :=
  match termination with
  | None => Ok ∅
  | Some (TermStr s) => read_terms [s] ∅
  | Some (TermList l) => read_terms l ∅
  end.

(** The attributes of an [Experiment] object.  [operating_conditions_cycles]
    holds the raw instructions as given; the step objects are in
    [unique_steps] and [operating_conditions_steps], as references.
    [unique_steps] is the set of the objects it holds, of which no two are
    equal. *)
Record t := mk {
  args : list condition * option string * option Q * option termination_arg;
  operating_conditions_cycles : list (list instruction);
  cycle_lengths : list nat;
  unique_steps : gset ref;
  operating_conditions_steps : list ref;
  termination_string : option termination_arg;
  termination : gmap string (Float.t * string);
  period : option Q;
  temperature : option Q;
}.

(** [if step.period is None: step.period = period], then the same for the
    temperature, on the object [step] of the store.  A reference always
    names an object; on an index outside the store nothing is done. *)
Definition inject_defaults (period temperature : option Q) (h : heap) (step : ref)
  : heap :=
  let h1 :=
    match Step.period <$> h !! step with
    | Some None => alter (Step.set_period period) step h
    | _ => h
    end in
  match Step.temperature <$> h1 !! step with
  | Some None => alter (Step.set_temperature temperature) step h1
  | _ => h1
  end.

Section with_environment.
Context {runtime : PyRuntime} {collaborators : Collaborators}.

(** [for step in self.unique_steps: ...] *)
Definition inject_all (period temperature : option Q) (h : heap)
    (unique_steps : gset ref) : heap :=
  foldl (inject_defaults period temperature) h (set_iter unique_steps).

(** The loop that fills [processed_steps], over the raw instructions the
    set holds, in the order the set yields them.  The dictionary finds a key
    by [__hash__] and [__eq__]: it is a map over what these go by.  The
    instructions are those given to the constructor: [h0] is the store as
    the constructor found it. *)
Fixpoint process_steps (h0 : heap) (unique_steps_unprocessed : list instruction)
    (processed_steps : gmap eq_key ref) (h : heap)
  : result (gmap eq_key ref * heap) :=
  match unique_steps_unprocessed with
  | [] => Ok (processed_steps, h)
  | step :: rest =>
      match step with
      | Text s =>
          new ← experiment_string s;
          let '(r, h') := alloc new h in
          process_steps h0 rest (<[key_of h0 step := r]> processed_steps) h'
      | Prebuilt r =>
          process_steps h0 rest (<[key_of h0 step := r]> processed_steps) h
      end
  end.

(** [[processed_steps[step] for step in ...]] *)
Fixpoint lookup_steps (h0 : heap) (processed_steps : gmap eq_key ref)
    (unprocessed : list instruction) : result (list ref) :=
  match unprocessed with
  | [] => Ok []
  | step :: rest =>
      match processed_steps !! key_of h0 step with
      | Some r => rs ← lookup_steps h0 processed_steps rest; Ok (r :: rs)
      | None => Raise (KeyError "step")
      end
  end.

(** [Experiment.__init__].  The store after a successful construction holds
    the new steps and the defaults filled in; a construction that raises
    returns no object, and has changed no object of the caller.

    [unique_steps_unprocessed] and [unique_steps] are sets of objects: each
    holds the first of every class of equal objects it was given, and the
    loops visit them in an order of the interpreter's choice.  The values of
    [processed_steps] come in the order in which the dictionary was filled,
    one new key at each turn of the loop. *)
Definition __init__ (h : heap)
    (operating_conditions : list condition)
    (period : option string) (temperature : option Q)
    (termination : option termination_arg)
    (drive_cycles cccv_handling : option pyvalue)
  : result (t * heap) :=
  if cccv_handling is Some _ then Raise cccv_handling_error
  else if drive_cycles is Some _ then Raise drive_cycles_error
  else
    let args := (operating_conditions, period, temperature, termination) in
    let operating_conditions_cycles :=
      map (λ cycle, match cycle with Tuple c => c | Single i => [i] end)
          operating_conditions in
    let cycle_lengths := map length operating_conditions_cycles in
    let operating_conditions_steps_unprocessed := concat operating_conditions_cycles in
    let unique_steps_unprocessed : gset instruction :=
      list_to_set (py_set (key_of h) operating_conditions_steps_unprocessed) in
    let visited := set_iter unique_steps_unprocessed in
    '(processed_steps, h1) ← process_steps h visited ∅ h;
    let values := omap (λ step, processed_steps !! key_of h step) visited in
    let unique_steps : gset ref := list_to_set (py_set (step_key h1) values) in
    operating_conditions_steps ←
      lookup_steps h processed_steps operating_conditions_steps_unprocessed;
    termination_dict ← read_termination termination;
    period_s ← _convert_time_to_seconds period;
    temperature_K ← _convert_temperature_to_kelvin temperature;
    let h2 := inject_all period_s temperature_K h1 unique_steps in
    Ok ({| args := args;
           operating_conditions_cycles := operating_conditions_cycles;
           cycle_lengths := cycle_lengths;
           unique_steps := unique_steps;
           operating_conditions_steps := operating_conditions_steps;
           termination_string := termination;
           termination := termination_dict;
           period := period_s;
           temperature := temperature_K |}, h2).

(** [copy]: a new construction from the arguments saved in [args], the two
    retired arguments left at [None]. *)
Definition copy (self : t) (h : heap) : result (t * heap) :=
  let '(operating_conditions, period, temperature, termination) := args self in
  __init__ h operating_conditions period temperature termination None None.

End with_environment.

(** Modelled from the spec: the step class of [steps.py] is not at hand.  A
    step as the spec describes it has an operation, a period and a
    temperature and is no container: it has neither [__contains__] nor
    [__iter__] nor [__getitem__], so the operator [in] raises [TypeError] on
    it. *)
Definition step_not_container : exn :=
  TypeError "argument of type '_Step' is not iterable".

(** The inner loop of [search_tag] over one cycle: [true] when it left by
    [break].  The membership test comes first and raises on a step object;
    unpacking the pieces of the split into two names raises [ValueError]
    unless there are exactly two pieces. *)
Fixpoint scan_cycle (tag : string) (cycle : list instruction) : result bool :=
  match cycle with
  | [] => Ok false
  | Prebuilt _ :: _ => Raise step_not_container
  | Text cond :: rest =>
      if Str.contains " [" cond then
        match Str.split cond " [" with
        | [_; tag_str] =>
            let tags := Str.split (Str.drop_last tag_str) "," in
            if bool_decide (tag ∈ tags) then Ok true else scan_cycle tag rest
        | _ => Raise (ValueError "too many values to unpack (expected 2)")
        end
      else scan_cycle tag rest
  end.

(** The outer loop: [i] is the index [enumerate] gives the next cycle. *)
Fixpoint search_cycles (tag : string) (i : nat) (rest : list (list instruction))
    (cycles : list nat) : result (list nat) :=
  match rest with
  | [] => Ok cycles
  | cycle :: rest' =>
      hit ← scan_cycle tag cycle;
      search_cycles tag (S i) rest' (if hit : bool then (cycles ++ [i])%list else cycles)
  end.

Definition search_tag (self : t) (tag : string) : result (list nat) :=
  search_cycles tag 0 (operating_conditions_cycles self) [].

(** The cycles of the operating conditions: a tuple as it is, anything else
    as a cycle of one. *)
Definition cycles_of (operating_conditions : list condition) : list (list instruction) :=
  map (λ cycle, match cycle with Tuple c => c | Single i => [i] end)
      operating_conditions.

(** The raw instructions of the operating conditions, in order. *)
Definition flatten (operating_conditions : list condition) : list instruction :=
  concat (cycles_of operating_conditions).

(** Every step object named in the operating conditions exists in the
    store: a reference a caller holds is never dangling. *)
Definition prebuilt_valid (h : heap) (operating_conditions : list condition) : bool :=
  forallb (λ x, match x with
                | Prebuilt r => bool_decide (r < length h)%nat
                | Text _ => true
                end)
          (flatten operating_conditions).

(** Every instruction of the operating conditions is text. *)
Definition all_text (operating_conditions : list condition) : bool :=
  forallb (λ x, match x with Prebuilt _ => false | Text _ => true end)
          (flatten operating_conditions).

End Experiment.

(** ** Stand-ins for the imported helpers, to run the constructor *)

(** Modelled from the spec: the two conversions of [steps.py], as the spec
    gives them: a text such as [1 hour] becomes a number of seconds, a
    temperature in degrees Celsius becomes kelvin, and [None] stays [None]. *)
Definition spec_time_to_seconds (period : option string) : result (option Q) :=
  match period with
  | None => Ok None
  | Some text =>
      match Str.split_ws text with
      | [n; unit] =>
          v ← float n;
          match v with
          | Float.Num q =>
              if bool_decide (unit ∈ ["second"; "seconds"; "s"; "sec"]) then Ok (Some q)
              else if bool_decide (unit ∈ ["minute"; "minutes"; "m"; "min"])
                then Ok (Some (Qred (q * 60)%Q))
              else if bool_decide (unit ∈ ["hour"; "hours"; "h"; "hr"])
                then Ok (Some (Qred (q * 3600)%Q))
              else Raise (ValueError "time units must be 'seconds', 'minutes' or 'hours'")
          | _ => Raise (ValueError "time must be a finite number")
          end
      | _ => Raise (ValueError "time must be given as a number and a unit")
      end
  end.

Definition spec_temperature_to_kelvin (temperature : option Q) : result (option Q) :=
  Ok ((λ c : Q, Qred (c + (27315 # 100))%Q) <$> temperature).

(** Modelled from the spec: a stand-in for the instruction grammar, which is
    not at hand.  It accepts every non-empty text and builds a step that
    names neither a period nor a temperature of its own. *)
Definition spec_string (text : string) : result Step.t :=
  if String.eqb text "" then Raise (ValueError "empty instruction")
  else Ok {| Step.operation := text; Step.period := None; Step.temperature := None |}.

Definition spec_collaborators : Collaborators :=
  {| experiment_string := spec_string;
     _convert_time_to_seconds := spec_time_to_seconds;
     _convert_temperature_to_kelvin := spec_temperature_to_kelvin |}.

(** A step object as a caller may build one, with neither a period nor a
    temperature of its own. *)
Definition current_1A : Step.t :=
  {| Step.operation := "current 1 A"; Step.period := None; Step.temperature := None |}.

(** ** Vocabulary for the properties *)

(** A magnitude written with digits and a decimal point only. *)
Definition plain_numeral (m : string) : bool :=
  forallb (λ c, Str.isdigit c || Str.ascii_eqb c "."%char) (Str.chars m).

(** [",".join(tags)] *)
Fixpoint comma_join (tags : list string) : string :=
  match tags with
  | [] => ""
  | [t] => t
  | t :: ts => t ++ "," ++ comma_join ts
  end.

(** An instruction with its tags written after it, as [search_tag] expects
    them: the text, a space, and the tags between brackets, separated by
    commas. *)
Definition tagged (body : string) (tags : list string) : string :=
  body ++ " [" ++ comma_join tags ++ "]".

(** The text holds no character [c]. *)
Definition no_char (c : ascii) (s : string) : bool :=
  forallb (λ x, negb (Str.ascii_eqb c x)) (Str.chars s).

(** An instruction given by its text and its tags: written bare when it has
    no tag, and with its tags otherwise. *)
Definition render (instr : string * list string) : string :=
  match instr.2 with
  | [] => instr.1
  | _ :: _ => tagged instr.1 instr.2
  end.

(** The text and the tags can be written and read back: no bracket in the
    text, neither bracket nor comma in a tag. *)
Definition writable (instr : string * list string) : bool :=
  no_char "["%char instr.1
  && forallb (λ t, no_char ","%char t && no_char "["%char t) instr.2.

Definition has_tag (tag : string) (cycle : list (string * list string)) : bool :=
  existsb (λ instr, bool_decide (tag ∈ instr.2)) cycle.

(** The indices, from [i] on, of the cycles that hold the tag. *)
Fixpoint cycles_with_tag (tag : string) (i : nat)
    (cycles : list (list (string * list string))) : list nat :=
  match cycles with
  | [] => []
  | cycle :: rest =>
      if has_tag tag cycle then i :: cycles_with_tag tag (S i) rest
      else cycles_with_tag tag (S i) rest
  end.

(** The raw instructions the constructor visits: those its set holds, in
    the order in which the loop over the set yields them. *)
Definition visited {runtime : PyRuntime} (h : list Step.t)
    (operating_conditions : list condition) : list instruction :=
  set_iter (list_to_set (C := gset instruction)
              (py_set (key_of h) (Experiment.flatten operating_conditions))).

(** [processed_steps[x]], read in the store [h]. *)
Definition resolved (processed_steps : gmap eq_key nat) (h : list Step.t)
    (x : instruction) : nat :=
  default 0%nat (processed_steps !! key_of h x).

(** The text of an instruction, when it is one. *)
Definition text_of (x : instruction) : option string :=
  match x with
  | Text s => Some s
  | Prebuilt _ => None
  end.

(** The distinct texts among the operating conditions. *)
Definition texts (operating_conditions : list condition) : gset string :=
  list_to_set (omap text_of (Experiment.flatten operating_conditions)).

(** ** The transference number of the electrolyte

    [electrolyte_transference_number_base_Landesfeind2019] works on whatever
    numbers it is given, through [+], [*], [/] and [**], and each of these
    may raise: on floats a power that overflows raises [OverflowError].  The
    function is written once over a type of numbers with these operations,
    applied in the order in which the source is evaluated, and then read over
    the rationals, where the arithmetic is exact and nothing raises. *)

Module Transference.

(** [truediv x n] is [x / n] and [pow x n] is [x ** n], for an integer
    literal [n]. *)
Class Arith (R : Type) := {
  add : R → R → result R;
  mul : R → R → result R;
  truediv : R → nat → result R;
  pow : R → nat → result R;
}.

Definition too_few (n : nat) : exn :=
  ValueError ("not enough values to unpack (expected 9, got " ++ pretty n ++ ")").
Definition too_many : exn := ValueError "too many values to unpack (expected 9)".

Section over_numbers.
Context {R : Type} `{Arith R}.

(** The polynomial in [c] and [T].  A sum is evaluated from the left, each
    term when the sum reaches it; in a term the product is evaluated from
    the left and a power before the product it stands in. *)
Definition tplus (c T p1 p2 p3 p4 p5 p6 p7 p8 p9 : R) : result R :=
  t ← mul p2 c; s ← add p1 t;
  t ← mul p3 T; s ← add s t;
  u ← pow c 2; t ← mul p4 u; s ← add s t;
  t ← mul p5 c; t ← mul t T; s ← add s t;
  u ← pow T 2; t ← mul p6 u; s ← add s t;
  u ← pow c 3; t ← mul p7 u; s ← add s t;
  u ← pow c 2; t ← mul p8 u; t ← mul t T; s ← add s t;
  t ← mul p9 c; u ← pow T 2; t ← mul t u; add s t.

(** The concentration is divided first, then the coefficients are unpacked
    into nine names, then the polynomial is evaluated. *)
Definition electrolyte_transference_number_base_Landesfeind2019
    (c_e T : R) (coeffs : list R) : result R :=
  c ← truediv c_e 1000;
  match coeffs with
  | [p1; p2; p3; p4; p5; p6; p7; p8; p9] => tplus c T p1 p2 p3 p4 p5 p6 p7 p8 p9
  | _ => if (length coeffs <? 9)%nat then Raise (too_few (length coeffs))
         else Raise too_many
  end.

End over_numbers.

(** The rationals, with their exact operations: none raises (the divisor
    and the exponents are the literals of the source). *)
#[global] Instance rational : Arith Q := {|
  add := λ x y, Ok (x + y)%Q;
  mul := λ x y, Ok (x * y)%Q;
  truediv := λ x n, Ok (x / inject_Z (Z.of_nat n))%Q;
  pow := λ x n, Ok (Qpower x (Z.of_nat n));
|}.

End Transference.

(** ** Sample data *)

(** Three cycles of tagged instructions. *)
Definition three_tagged_cycles : list (list (string * list string)) :=
  [[("Charge at 1C for 1 hour", ["tag1"])];
   [("Rest for 10 minutes", ["tag2"]); ("Rest for 1 hour", [])];
   [("Hold at 4.2V until C/50", ["tag1"; "tag2"])]].

(** The step object a caller gets from the grammar for [Rest for 1 hour]:
    equal to the step the constructor builds from that text. *)
Definition rest_1h : Step.t :=
  {| Step.operation := "Rest for 1 hour"; Step.period := None; Step.temperature := None |}.

(** A step object that names a period of its own. *)
Definition rest_30s : Step.t :=
  {| Step.operation := "Rest for 1 hour (30 second period)";
     Step.period := Some (30 # 1); Step.temperature := None |}.


(** * Properties *)

Import Experiment.

(** ** [str] and [float] on sample inputs *)

Example float_80 : float "80" = Ok (Float.Num (80 # 1)).
Proof. reflexivity. Qed.

Example float_trailing_space : float "2.5 " = Ok (Float.Num (5 # 2)).
Proof. reflexivity. Qed.

Example float_exponent : float " -1_0.25e+1" = Ok (Float.Num (- 205 # 2)).
Proof. reflexivity. Qed.

Example float_rejects_text :
  float "abc" = Raise (ValueError "could not convert string to float: 'abc'").
Proof. reflexivity. Qed.

Example float_rejects_separator :
  float (String "028"%char "2.5")
  = Raise (ValueError "could not convert string to float: '\x1c2.5'").
Proof. reflexivity. Qed.

Example float_newline : float (String "010"%char "2.5") = Ok (Float.Num (5 # 2)).
Proof. reflexivity. Qed.

Example float_rounds :
  float "0.1" = Ok (Float.Num (3602879701896397 # 36028797018963968)).
Proof. vm_compute. reflexivity. Qed.

Example float_tie_to_even :
  float "9007199254740993" = Ok (Float.Num (9007199254740992 # 1)).
Proof. vm_compute. reflexivity. Qed.

Example float_overflows : float "-1e400" = Ok (Float.Inf true).
Proof. vm_compute. reflexivity. Qed.

Example float_underflows : float "1e-400" = Ok (Float.Num 0).
Proof. vm_compute. reflexivity. Qed.

Example split_ws_runs : Str.split_ws "  4 Ah   capacity " = ["4"; "Ah"; "capacity"].
Proof. reflexivity. Qed.

Example split_two_brackets : Str.split "a [b] [c" " [" = ["a"; "b]"; "c"].
Proof. reflexivity. Qed.

Example split_no_overlap : Str.split "aaa" "aa" = [""; "a"].
Proof. reflexivity. Qed.

Example replace_A_dot_h : Str.replace "4A.h" "A.h" "Ah" = "4Ah".
Proof. reflexivity. Qed.

Lemma starts_app p s : Str.starts p s = true ↔ ∃ r, s = (p ++ r)%list.
Proof.
  revert s. induction p as [|x p IH]; intros s; simpl.
  - split; eauto.
  - destruct s as [|y s].
    + split; [done | intros [r Hr]; discriminate].
    + rewrite andb_true_iff, IH. unfold Str.ascii_eqb. rewrite Ascii.eqb_eq.
      split.
      * intros [-> [r ->]]. eauto.
      * intros [r Hr]. injection Hr as -> ->. eauto.
Qed.

(** A text that ends in [A.h] ends neither in [%] nor in [Ah]. *)
Lemma endswith_A_dot_h s :
  Str.endswith s "A.h" = true →
  Str.endswith s "%" = false ∧ Str.endswith s "Ah" = false.
Proof.
  unfold Str.endswith. intros [r Hr]%starts_app. rewrite Hr. split; reflexivity.
Qed.

(** ** The termination parser *)

(** C5: the literal cases of the termination parser.  A percentage, an
    ampere-hour capacity and a voltage are each parsed to their entry, a list
    of two gives both entries, a capacity without [%] or [Ah] raises the
    capacity-format error, a text that is neither raises the other error, and
    [None] gives the empty mapping. *)
Theorem read_termination_literals :
  read_termination (Some (TermStr "80% capacity"))
    = Ok {[ "capacity" := (Float.Num (80 # 1), "%") ]}
  ∧ read_termination (Some (TermStr "4Ah capacity"))
    = Ok {[ "capacity" := (Float.Num (4 # 1), "Ah") ]}
  ∧ read_termination (Some (TermStr "2.5 V"))
    = Ok {[ "voltage" := (Float.Num (5 # 2), "V") ]}
  ∧ read_termination (Some (TermList ["80% capacity"; "2.5 V"]))
    = Ok {[ "capacity" := (Float.Num (80 # 1), "%");
            "voltage" := (Float.Num (5 # 2), "V") ]}
  ∧ read_termination (Some (TermStr "80 capacity")) = Raise capacity_format_error
  ∧ read_termination (Some (TermStr "abc")) = Raise termination_kind_error
  ∧ read_termination None = Ok ∅.
Proof. repeat split; vm_compute; reflexivity. Qed.

Lemma read_terms_raise term l d :
  (∀ d', ¬ is_Ok (read_term term d')) → term ∈ l → ¬ is_Ok (read_terms l d).
Proof.
  intros Hterm Hin. revert d.
  induction l as [|x l IH]; intros d; [by apply elem_of_nil in Hin|].
  simpl. destruct (read_term x d) as [d1|e] eqn:Hx; simpl.
  - apply elem_of_cons in Hin as [->|Hin].
    + exfalso. apply (Hterm d). by exists d1.
    + by apply IH.
  - intros [a Ha]. discriminate.
Qed.

(** C10: a capacity termination whose magnitude ends in [A.h] is refused
    with the capacity-format error, the one whose message names ['4A.h'] as
    an accepted form.  The value of [replace] is not used, so the magnitude
    that is tested still ends in [A.h]; no termination list that holds such
    an entry is accepted. *)
Theorem read_termination_A_dot_h (term : string) :
  last (Str.split_ws term) = Some "capacity" →
  Str.endswith (Str.join (removelast (Str.split_ws term))) "A.h" = true →
  (∀ d, read_term term d = Raise capacity_format_error)
  ∧ read_termination (Some (TermStr term)) = Raise capacity_format_error
  ∧ ∀ l, term ∈ l → ¬ is_Ok (read_termination (Some (TermList l))).
Proof.
  intros Hlast Hend.
  destruct (endswith_A_dot_h _ Hend) as [Hpct HAh].
  assert (∀ d, read_term term d = Raise capacity_format_error) as Hterm.
  { intros d. unfold read_term. rewrite Hlast. simpl. by rewrite Hpct, HAh. }
  split; [done|]. split.
  - simpl. by rewrite Hterm.
  - intros l Hin. simpl. apply (read_terms_raise term); [|done].
    intros d' [a Ha]. rewrite Hterm in Ha. discriminate.
Qed.

Lemma read_termination_A_dot_h_witness :
  read_termination (Some (TermStr "4A.h capacity")) = Raise capacity_format_error.
Proof.
  apply (read_termination_A_dot_h "4A.h capacity"); reflexivity.
Defined.

(** ** The retired arguments *)

(** C8: a value other than [None] for [drive_cycles] or for [cccv_handling]
    makes the constructor raise the error written for that argument,
    whatever the other arguments are, and no experiment is built. *)
Theorem retired_arguments_raise `{PyRuntime} `{Collaborators}
    (h : heap) operating_conditions period temperature termination
    (drive_cycles cccv_handling : option pyvalue) :
  drive_cycles ≠ None ∨ cccv_handling ≠ None →
  __init__ h operating_conditions period temperature termination
           drive_cycles cccv_handling
  = Raise (if cccv_handling is Some _ then cccv_handling_error
           else drive_cycles_error).
Proof.
  intros Hretired. unfold __init__.
  destruct cccv_handling; [done|]. destruct drive_cycles; [done|].
  by destruct Hretired.
Qed.

Lemma retired_arguments_raise_witness :
  (Some (PyStr "US06") ≠ None ∨ (None : option pyvalue) ≠ None)
  ∧ @__init__ elements_runtime spec_collaborators []
      [Single (Text "Rest for 1 hour")] (Some "1 minute") None None
      (Some (PyStr "US06")) None
    = Raise drive_cycles_error.
Proof.
  assert (Some (PyStr "US06") ≠ None ∨ (None : option pyvalue) ≠ None) as Hyp
    by (left; discriminate).
  split; [exact Hyp|].
  exact (retired_arguments_raise [] _ _ _ _ _ _ Hyp).
Defined.

(** ** Tag search *)

(** An instruction without the bracket marker carries no tag: the scan
    goes on to the next instruction, without error. *)
Lemma scan_cycle_no_bracket tag cond rest :
  Str.contains " [" cond = false →
  scan_cycle tag (Text cond :: rest) = scan_cycle tag rest.
Proof. intros Hno. simpl. by rewrite Hno. Qed.

(** The scan of a cycle stops at the first instruction that carries the
    tag: what follows it is not looked at. *)
Lemma scan_cycle_first_match tag cond body tag_str rest :
  Str.split cond " [" = [body; tag_str] →
  tag ∈ Str.split (Str.drop_last tag_str) "," →
  Str.contains " [" cond = true →
  scan_cycle tag (Text cond :: rest) = Ok true.
Proof.
  intros Hsplit Htag Hin. simpl. rewrite Hin, Hsplit.
  by rewrite bool_decide_eq_true_2.
Qed.

Lemma search_cycles_spec tag rest : ∀ i acc l,
  search_cycles tag i rest acc = Ok l →
  ∃ found, l = (acc ++ found)%list
    ∧ StronglySorted lt found
    ∧ ∀ k, k ∈ found ↔
        (i ≤ k)%nat ∧ ∃ cycle, rest !! (k - i)%nat = Some cycle
                             ∧ scan_cycle tag cycle = Ok true.
Proof.
  induction rest as [|cycle rest IH]; intros i acc l Hrun.
  - injection Hrun as <-. exists []. rewrite app_nil_r.
    split; [done|]. split; [constructor|].
    intros k. split; [by intros ?%elem_of_nil|].
    by intros (_ & c & Hc & _).
  - cbn [search_cycles] in Hrun.
    destruct (scan_cycle tag cycle) as [hit|] eqn:Hscan; [|discriminate].
    cbn in Hrun. apply IH in Hrun as (found & -> & Hsorted & Hmem).
    assert (∀ k, k ∈ found → (S i ≤ k)%nat) as Hlow
      by (intros k Hk; by apply Hmem in Hk as [? _]).
    assert (∀ k, (S i ≤ k)%nat → (cycle :: rest) !! (k - i)%nat = rest !! (k - S i)%nat)
      as Hshift.
    { intros k Hk. by replace (k - i)%nat with (S (k - S i)) by lia. }
    destruct hit.
    + exists (i :: found). rewrite <- app_assoc. split; [done|]. split.
      * constructor; [done|]. apply Forall_forall. intros k Hk%Hlow. lia.
      * intros k. rewrite elem_of_cons, Hmem. split.
        -- intros [->|[Hk (c & Hc & Hhit)]].
           ++ split; [lia|]. exists cycle. by rewrite Nat.sub_diag.
           ++ split; [lia|]. exists c. by rewrite Hshift.
        -- intros [Hk (c & Hc & Hhit)].
           destruct (decide (k = i)) as [->|Hne]; [by left|].
           right. split; [lia|]. exists c. rewrite <- Hshift by lia. done.
    + exists found. split; [done|]. split; [done|].
      intros k. rewrite Hmem. split.
      * intros [Hk (c & Hc & Hhit)]. split; [lia|]. exists c. by rewrite Hshift.
      * intros [Hk (c & Hc & Hhit)].
        destruct (decide (k = i)) as [->|Hne].
        -- rewrite Nat.sub_diag in Hc. simpl in Hc. congruence.
        -- split; [lia|]. exists c. rewrite <- Hshift by lia. done.
Qed.

(** When [search_tag] returns, the indices are in ascending order, none
    twice, and they are those of the cycles whose scan found the tag. *)
Lemma search_tag_ascending self tag l :
  search_tag self tag = Ok l →
  StronglySorted lt l ∧ NoDup l
  ∧ ∀ k, k ∈ l ↔ ∃ cycle, operating_conditions_cycles self !! k = Some cycle
                         ∧ scan_cycle tag cycle = Ok true.
Proof.
  intros (found & -> & Hsorted & Hmem)%search_cycles_spec. simpl.
  split; [done|]. split.
  - clear Hmem. induction Hsorted as [|k found Hs IH Hall]; constructor; [|done].
    intros Hin. rewrite Forall_forall in Hall. apply Hall in Hin. lia.
  - intros k. rewrite Hmem, Nat.sub_0_r. split; [by intros [_ ?]|].
    intros ?. split; [lia|done].
Qed.

Lemma split_go_nonempty sep s skip cur : Str.split_go sep s skip cur ≠ [].
Proof.
  revert skip cur. induction s as [|c s IH]; intros skip cur; simpl; [done|].
  destruct skip; [|apply IH]. destruct (Str.starts sep (c :: s)); [done|apply IH].
Qed.

Lemma contains_split_go sep s cur :
  sep ≠ [] → Str.contains_chars sep s = true →
  (2 ≤ length (Str.split_go sep s 0 cur))%nat.
Proof.
  intros Hsep. revert cur. induction s as [|c s IH]; intros cur Hin.
  - destruct sep; [done|discriminate].
  - cbn [Str.contains_chars] in Hin. cbn [Str.split_go].
    destruct (Str.starts sep (c :: s)) eqn:Hstart.
    + pose proof (split_go_nonempty sep s (length sep - 1) []) as Hne.
      destruct (Str.split_go sep s (length sep - 1) []); [done|]. simpl. lia.
    + apply IH. done.
Qed.

(** On a cycle of texts, each with at most one bracket marker, the scan
    returns. *)
Lemma scan_cycle_total tag cycle :
  Forall (λ x, ∃ cond, x = Text cond ∧ (length (Str.split cond " [") ≤ 2)%nat) cycle →
  is_Ok (scan_cycle tag cycle).
Proof.
  induction 1 as [|x cycle (cond & -> & Hlen) _ IH]; [by eexists|].
  cbn [scan_cycle]. destruct (Str.contains " [" cond) eqn:Hin; [|done].
  pose proof (contains_split_go (Str.chars " [") (Str.chars cond) [] ltac:(done) Hin)
    as Hge.
  fold (Str.split cond " [") in Hge.
  destruct (Str.split cond " [") as [|a [|b [|c l]]]; simpl in *; try lia.
  case_bool_decide; [by eexists|done].
Qed.

Lemma search_cycles_total tag rest : ∀ i acc,
  Forall (Forall (λ x, ∃ cond, x = Text cond
                       ∧ (length (Str.split cond " [") ≤ 2)%nat)) rest →
  is_Ok (search_cycles tag i rest acc).
Proof.
  induction rest as [|cycle rest IH]; intros i acc Hall; [by eexists|].
  apply Forall_cons in Hall as [Hc Hrest]. cbn [search_cycles].
  destruct (scan_cycle_total tag cycle Hc) as [hit ->]. cbn. by apply IH.
Qed.

(** The spec's example of three tagged cycles. *)
Example search_tag_example :
  let cycles := [[Text "Charge at 1C for 1 hour [tag1]"];
                 [Text "Rest for 10 minutes [tag2]"];
                 [Text "Hold at 4.2V until C/50 [tag1,tag2]"]] in
  search_cycles "tag1" 0 cycles [] = Ok [0; 2]%nat
  ∧ search_cycles "tag2" 0 cycles [] = Ok [1; 2]%nat.
Proof. split; reflexivity. Qed.

(** An instruction with two bracket markers cannot be unpacked. *)
Example search_tag_two_brackets :
  search_cycles "a" 0 [[Text "Rest for 1 hour [a] [b]"]] []
  = Raise (ValueError "too many values to unpack (expected 2)").
Proof. reflexivity. Qed.

(** C6: on an experiment that holds a step object, [search_tag] does not
    skip the object: the membership test on it raises [TypeError], and no
    list of cycles is returned. *)
Theorem search_tag_step_object :
  ∃ e h',
    @__init__ elements_runtime spec_collaborators [current_1A]
      [Single (Prebuilt 0)] (Some "1 minute") None None None None = Ok (e, h')
    ∧ search_tag e "tag1" = Raise step_not_container.
Proof. eexists _, _. split; [vm_compute; reflexivity|]. reflexivity. Qed.

Lemma search_tag_prebuilt_first self tag r rest cycles :
  operating_conditions_cycles self = (Prebuilt r :: rest) :: cycles →
  search_tag self tag = Raise step_not_container.
Proof. unfold search_tag. by intros ->. Qed.

(** ** The constructor *)

(** *** Sets of objects *)

Lemma elem_of_py_set_go {A K} `{EqDecision K} (key : A → K) seen l x :
  x ∈ py_set_go key seen l → x ∈ l ∧ key x ∉ seen.
Proof.
  revert seen. induction l as [|a l IH]; intros seen; cbn.
  { by intros ?%elem_of_nil. }
  case_decide as Ha.
  - intros [Hin Hseen]%IH. split; [by right|done].
  - intros [->|[Hin Hseen]%IH]%elem_of_cons; [split; [left|done]|].
    split; [by right|]. intros Hx. apply Hseen. by right.
Qed.

Lemma NoDup_py_set_go {A K} `{EqDecision K} (key : A → K) seen l :
  NoDup (key <$> py_set_go key seen l).
Proof.
  revert seen. induction l as [|a l IH]; intros seen; cbn; [constructor|].
  case_decide as Ha; [apply IH|]. cbn. constructor; [|apply IH].
  intros (y & Hy & [_ Hseen]%elem_of_py_set_go)%list_elem_of_fmap.
  apply Hseen. rewrite <- Hy. left.
Qed.

Lemma py_set_go_covers {A K} `{EqDecision K} (key : A → K) seen l x :
  x ∈ l → key x ∈ seen ∨ ∃ y, y ∈ py_set_go key seen l ∧ key y = key x.
Proof.
  revert seen. induction l as [|a l IH]; intros seen; cbn.
  { by intros ?%elem_of_nil. }
  intros [->|Hin]%elem_of_cons.
  - case_decide as Ha; [by left|]. right. exists a. split; [left|done].
  - case_decide as Ha; [by apply IH|].
    destruct (IH (key a :: seen) Hin) as [[Heq|Hseen]%elem_of_cons|(y & Hy & Hk)].
    + right. exists a. split; [left|done].
    + by left.
    + right. exists y. split; [by right|done].
Qed.

Lemma py_set_go_first {A K} `{EqDecision K} (key : A → K) seen l x :
  x ∈ l → key x ∉ seen → (∀ y, y ∈ l → key y = key x → y = x) →
  x ∈ py_set_go key seen l.
Proof.
  revert seen. induction l as [|a l IH]; intros seen; cbn.
  { by intros ?%elem_of_nil. }
  intros Hin Hseen Hfirst. case_decide as Ha.
  - apply elem_of_cons in Hin as [->|Hin]; [done|].
    apply IH; [done..|]. intros y Hy. apply Hfirst. by right.
  - destruct (decide (key a = key x)) as [Heq|Hne].
    { rewrite (Hfirst a) by (done || left). left. }
    apply elem_of_cons in Hin as [->|Hin]; [left|]. right.
    apply IH; [done| |intros y Hy; apply Hfirst; by right].
    intros [Heq|?]%elem_of_cons; [|done]. by apply Hne.
Qed.

Lemma py_set_go_fmap {A B K} `{EqDecision K} (key : A → K) (f : B → A) seen l :
  py_set_go key seen (f <$> l) = f <$> py_set_go (key ∘ f) seen l.
Proof.
  revert seen. induction l as [|a l IH]; intros seen; cbn; [done|].
  case_decide; [apply IH|]. cbn. f_equal. apply IH.
Qed.

Lemma py_set_go_ext {A K} `{EqDecision K} (key key' : A → K) seen l :
  (∀ x, x ∈ l → key x = key' x) →
  py_set_go key seen l = py_set_go key' seen l.
Proof.
  revert seen. induction l as [|a l IH]; intros seen Hext; cbn; [done|].
  rewrite <- (Hext a) by left.
  case_decide; [|f_equal]; apply IH; intros x Hx; apply Hext; by right.
Qed.

Lemma elem_of_py_set {A K} `{EqDecision K} (key : A → K) l x :
  x ∈ py_set key l → x ∈ l.
Proof. by intros [? _]%elem_of_py_set_go. Qed.

Lemma py_set_covers {A K} `{EqDecision K} (key : A → K) l x :
  x ∈ l → ∃ y, y ∈ py_set key l ∧ key y = key x.
Proof.
  intros Hin.
  by destruct (py_set_go_covers key [] l x Hin) as [?%elem_of_nil|?].
Qed.

Lemma py_set_first {A K} `{EqDecision K} (key : A → K) l x :
  x ∈ l → (∀ y, y ∈ l → key y = key x → y = x) → x ∈ py_set key l.
Proof. intros Hin Hfirst. apply py_set_go_first; [done| |done]. apply not_elem_of_nil. Qed.

Lemma NoDup_fmap_inj_on {A B} (f : A → B) (l : list A) x y :
  NoDup (f <$> l) → x ∈ l → y ∈ l → f x = f y → x = y.
Proof.
  induction l as [|a l IH]; cbn; [by intros _ ?%elem_of_nil|].
  intros [Ha Hl]%NoDup_cons [->|Hx]%elem_of_cons [->|Hy]%elem_of_cons Heq.
  - done.
  - exfalso. apply Ha. rewrite Heq. by apply list_elem_of_fmap_2.
  - exfalso. apply Ha. rewrite <- Heq. by apply list_elem_of_fmap_2.
  - by apply IH.
Qed.

Lemma py_set_distinct {A K} `{EqDecision K} (key : A → K) l x y :
  x ∈ py_set key l → y ∈ py_set key l → key x = key y → x = y.
Proof. apply NoDup_fmap_inj_on, NoDup_py_set_go. Qed.

(** The instructions of a text are kept as they are: a text is equal to
    itself only. *)
Lemma py_set_text (h : list Step.t) flat s :
  Text s ∈ py_set (key_of h) flat ↔ Text s ∈ flat.
Proof.
  split; [apply elem_of_py_set|]. intros Hin. apply py_set_first; [done|].
  intros [s'|r] _; cbn; [congruence|]. unfold step_key.
  destruct (h !! r); discriminate.
Qed.

(** *** The store and the defaults *)

Lemma with_defaults_idemp p t s :
  Step.with_defaults p t (Step.with_defaults p t s) = Step.with_defaults p t s.
Proof. destruct s as [o [a|] [b|]]; destruct p, t; reflexivity. Qed.

Lemma inject_defaults_alter p t (h : list Step.t) r :
  inject_defaults p t h r = alter (Step.with_defaults p t) r h.
Proof.
  unfold inject_defaults. apply list_eq. intros i.
  destruct (decide (r = i)) as [<-|Hne].
  - rewrite list_lookup_alter_eq.
    destruct (h !! r) as [[o a b]|] eqn:Hr; simpl; [|by rewrite Hr].
    destruct a as [a|], b as [b|]; simpl;
      rewrite ?list_lookup_alter_eq, ?Hr; simpl;
      rewrite ?list_lookup_alter_eq, ?Hr; done.
  - rewrite list_lookup_alter_ne by done.
    destruct (Step.period <$> h !! r) as [[?|]|];
      repeat (match goal with |- context [match ?x with _ => _ end] => destruct x end;
              rewrite ?list_lookup_alter_ne by done); done.
Qed.

Lemma foldl_inject_lookup p t (l : list nat) (h : list Step.t) r :
  foldl (inject_defaults p t) h l !! r
  = if decide (r ∈ l) then Step.with_defaults p t <$> h !! r else h !! r.
Proof.
  revert h. induction l as [|x l IH]; intros h; [done|]. cbn [foldl].
  rewrite IH, inject_defaults_alter.
  destruct (decide (x = r)) as [->|Hne].
  - rewrite list_lookup_alter_eq, (decide_True (P := r ∈ r :: l)) by left.
    case_decide; [|done].
    destruct (h !! r); simpl; [|done]. by rewrite with_defaults_idemp.
  - rewrite list_lookup_alter_ne by done.
    destruct (decide (r ∈ l)) as [Hin|Hnin].
    + rewrite decide_True by (by right). done.
    + rewrite decide_False; [done|]. by intros [?|?]%elem_of_cons.
Qed.

(** Writing to the period or the temperature of a step leaves what the
    step is compared by. *)
Lemma step_key_app (h new : list Step.t) r :
  (r < length h)%nat → step_key (h ++ new) r = step_key h r.
Proof. intros Hr. unfold step_key. by rewrite lookup_app_l. Qed.

Lemma key_of_text_inv (h : list Step.t) x s :
  key_of h x = OfText s → x = Text s.
Proof.
  destruct x as [s'|r]; cbn; [congruence|]. unfold step_key.
  destruct (h !! r); discriminate.
Qed.

Section constructor.
Context {runtime : PyRuntime} {collaborators : Collaborators}.

Lemma elem_of_set_iter `{Countable A} (X : gset A) x : x ∈ set_iter X ↔ x ∈ X.
Proof. by rewrite set_iter_perm, elem_of_elements. Qed.

Lemma NoDup_set_iter `{Countable A} (X : gset A) : NoDup (set_iter X).
Proof. rewrite set_iter_perm. apply NoDup_elements. Qed.

Lemma inject_all_lookup p t (h : list Step.t) (U : gset nat) r :
  inject_all p t h U !! r
  = if decide (r ∈ U) then Step.with_defaults p t <$> h !! r else h !! r.
Proof.
  unfold inject_all. rewrite foldl_inject_lookup.
  repeat case_decide; try done; exfalso; by rewrite elem_of_set_iter in *.
Qed.

Lemma inject_all_length p t (h : list Step.t) (U : gset nat) :
  length (inject_all p t h U) = length h.
Proof.
  unfold inject_all. generalize (set_iter U). intros l. revert h.
  induction l as [|x l IH]; intros h; simpl; [done|].
  by rewrite IH, inject_defaults_alter, length_alter.
Qed.

Lemma step_key_inject p t (h : list Step.t) (U : gset nat) r :
  step_key (inject_all p t h U) r = step_key h r.
Proof.
  unfold step_key. rewrite inject_all_lookup.
  case_decide; [|done]. by destruct (h !! r).
Qed.

(** *** The instructions visited *)

Lemma elem_of_visited (h : list Step.t) ops x :
  x ∈ visited h ops ↔ x ∈ py_set (key_of h) (flatten ops).
Proof. unfold visited. by rewrite elem_of_set_iter, elem_of_list_to_set. Qed.

Lemma visited_flat (h : list Step.t) ops x : x ∈ visited h ops → x ∈ flatten ops.
Proof. rewrite elem_of_visited. apply elem_of_py_set. Qed.

Lemma visited_covers (h : list Step.t) ops x :
  x ∈ flatten ops → ∃ y, y ∈ visited h ops ∧ key_of h y = key_of h x.
Proof.
  intros (y & Hy & Hk)%(py_set_covers (key_of h)).
  exists y. by rewrite elem_of_visited.
Qed.

Lemma visited_text (h : list Step.t) ops s :
  Text s ∈ visited h ops ↔ Text s ∈ flatten ops.
Proof. by rewrite elem_of_visited, py_set_text. Qed.

Lemma visited_distinct (h : list Step.t) ops x y :
  x ∈ visited h ops → y ∈ visited h ops →
  key_of h x = key_of h y → x = y.
Proof. rewrite !elem_of_visited. apply py_set_distinct. Qed.

Lemma NoDup_visited (h : list Step.t) ops :
  NoDup (key_of h <$> visited h ops).
Proof.
  apply NoDup_fmap_2_strong; [|apply NoDup_set_iter].
  intros x y. apply visited_distinct.
Qed.

Lemma visited_texts (h : list Step.t) ops :
  length (omap text_of (visited h ops)) = size (texts ops).
Proof.
  unfold texts.
  assert (NoDup (omap text_of (visited h ops))) as Hnodup.
  { assert (NoDup (visited h ops)) as Hkeys by apply NoDup_set_iter.
    induction Hkeys as [|k keys Hnin Hkeys IH]; [constructor|].
    destruct k as [s|r]; cbn; [|done]. constructor; [|done].
    intros ([s'|r'] & Hin & [= ->])%list_elem_of_omap. done. }
  rewrite <- (size_list_to_set (C := gset string) _ Hnodup). f_equal.
  apply set_eq. intros s. rewrite !elem_of_list_to_set, !list_elem_of_omap.
  split; intros ([s'|r] & Hx & [= ->]); exists (Text s); (split; [|done]).
  - by apply (proj1 (visited_text h ops s)).
  - by apply (proj2 (visited_text h ops s)).
Qed.

(** *** The two loops over the instructions *)

Lemma process_steps_spec h0 keys (m : gmap eq_key nat) (h : list Step.t) m' h1 :
  NoDup (key_of h0 <$> keys) →
  process_steps h0 keys m h = Ok (m', h1) →
  (∃ new, h1 = (h ++ new)%list ∧ length new = length (omap text_of keys))
  ∧ (∀ k, k ∉ key_of h0 <$> keys → m' !! k = m !! k)
  ∧ (∀ r, Prebuilt r ∈ keys → m' !! key_of h0 (Prebuilt r) = Some r)
  ∧ (∀ s, Text s ∈ keys → ∃ r st,
        m' !! OfText s = Some r ∧ (length h ≤ r < length h1)%nat
        ∧ experiment_string s = Ok st ∧ h1 !! r = Some st).
Proof.
  revert m h. induction keys as [|k keys IH]; intros m h Hnodup Hrun.
  - injection Hrun as <- <-. split; [exists []; by rewrite app_nil_r|].
    split; [done|]. split; intros ? Hin; by apply elem_of_nil in Hin.
  - cbn in Hnodup. apply NoDup_cons in Hnodup as [Hk Hnodup].
    destruct k as [s|r]; cbn [process_steps] in Hrun.
    + destruct (experiment_string s) as [new|] eqn:Hs; [|discriminate].
      cbn in Hrun. cbn [key_of] in Hk.
      apply IH in Hrun as ((news & -> & Hlen) & Hout & Hpre & Htxt); [|done].
      split; [exists (new :: news); cbn; by rewrite <- app_assoc, Hlen|].
      split; [|split].
      * intros k [Hk1 Hk2]%not_elem_of_cons.
        rewrite Hout, lookup_insert_ne; done.
      * intros r [?|Hin]%elem_of_cons; [discriminate|]. by apply Hpre.
      * intros s' [[= ->]|Hin]%elem_of_cons.
        -- exists (length h), new. rewrite (Hout _ Hk). cbn.
           rewrite lookup_insert_eq, !length_app. cbn.
           repeat split; try done; try lia.
           rewrite <- app_assoc. cbn. by rewrite list_lookup_middle.
        -- destruct (Htxt s' Hin) as (r & st & Hm & Hr & Hst & Hh).
           exists r, st. rewrite length_app in Hr. cbn in Hr.
           repeat split; try done; lia.
    + apply IH in Hrun as (Hnew & Hout & Hpre & Htxt); [|done].
      split; [done|]. split; [|split].
      * intros k [Hk1 Hk2]%not_elem_of_cons.
        rewrite Hout, lookup_insert_ne; done.
      * intros r' [[= ->]|Hin]%elem_of_cons; [|by apply Hpre].
        by rewrite (Hout _ Hk), lookup_insert_eq.
      * intros s [?|Hin]%elem_of_cons; [discriminate|]. by apply Htxt.
Qed.

Lemma process_steps_total h0 keys (m : gmap eq_key nat) (h : list Step.t) :
  (∀ s, Text s ∈ keys → is_Ok (experiment_string s)) →
  is_Ok (process_steps h0 keys m h).
Proof.
  revert m h. induction keys as [|k keys IH]; intros m h Hok; [by eexists|].
  destruct k as [s|r]; cbn [process_steps].
  - destruct (Hok s) as [st ->]; [left|]. cbn. apply IH.
    intros s' Hin. apply Hok. by right.
  - apply IH. intros s' Hin. apply Hok. by right.
Qed.

Lemma process_steps_raise h0 keys (m : gmap eq_key nat) (h : list Step.t) e :
  process_steps h0 keys m h = Raise e →
  ∃ s, Text s ∈ keys ∧ experiment_string s = Raise e.
Proof.
  revert m h. induction keys as [|k keys IH]; intros m h; [discriminate|].
  destruct k as [s|r]; cbn [process_steps].
  - destruct (experiment_string s) as [new|e'] eqn:Hs; cbn.
    + intros (s' & Hin & Hs')%IH. exists s'. split; [by right|done].
    + intros [= ->]. exists s. split; [left|done].
  - intros (s' & Hin & Hs')%IH. exists s'. split; [by right|done].
Qed.

(** A new object for each text: two texts never get the same one. *)
Lemma process_steps_distinct h0 keys (m : gmap eq_key nat) (h : list Step.t) m' h1 :
  NoDup (key_of h0 <$> keys) →
  process_steps h0 keys m h = Ok (m', h1) →
  ∀ s1 s2 r, Text s1 ∈ keys → Text s2 ∈ keys →
    m' !! OfText s1 = Some r → m' !! OfText s2 = Some r → s1 = s2.
Proof.
  revert m h. induction keys as [|k keys IH]; intros m h Hnodup Hrun s1 s2 r H1 H2 Hr1 Hr2.
  { by apply elem_of_nil in H1. }
  cbn in Hnodup. apply NoDup_cons in Hnodup as [Hk Hnodup].
  destruct k as [s|r0]; cbn [process_steps] in Hrun.
  - destruct (experiment_string s) as [new|]; [|discriminate]. cbn in Hrun.
    cbn [key_of] in Hk.
    pose proof (process_steps_spec _ _ _ _ _ _ Hnodup Hrun) as (_ & Hout & _ & Htxt).
    assert (m' !! OfText s = Some (length h)) as Hhead
      by (by rewrite (Hout _ Hk), lookup_insert_eq).
    assert (∀ s', Text s' ∈ keys → ∀ r', m' !! OfText s' = Some r' →
              (length h < r')%nat) as Hrest.
    { intros s' Hin r' Hr'. destruct (Htxt s' Hin) as (r'' & st & Hm & Hrange & _).
      rewrite length_app in Hrange. cbn in Hrange.
      assert (r'' = r') as -> by congruence. lia. }
    apply elem_of_cons in H1 as [[= ->]|H1]; apply elem_of_cons in H2 as [[= ->]|H2].
    + done.
    + pose proof (Hrest _ H2 _ Hr2). rewrite Hhead in Hr1. injection Hr1 as <-. lia.
    + pose proof (Hrest _ H1 _ Hr1). rewrite Hhead in Hr2. injection Hr2 as <-. lia.
    + by eapply IH.
  - apply elem_of_cons in H1 as [?|H1]; [discriminate|].
    apply elem_of_cons in H2 as [?|H2]; [discriminate|].
    by eapply IH.
Qed.

Lemma lookup_steps_spec h0 (m : gmap eq_key nat) flat steps :
  lookup_steps h0 m flat = Ok steps
  ↔ Forall2 (λ x r, m !! key_of h0 x = Some r) flat steps.
Proof.
  revert steps. induction flat as [|x flat IH]; intros steps; simpl.
  - split; [intros [= <-]; constructor | intros ->%Forall2_nil_inv_l; done].
  - destruct (m !! key_of h0 x) as [r|] eqn:Hx.
    + destruct (lookup_steps h0 m flat) as [rs|] eqn:Hrs; simpl.
      * split.
        -- intros [= <-]. constructor; [done|]. by apply IH.
        -- intros (r' & rs' & Hr & Hrest & ->)%Forall2_cons_inv_l.
           apply IH in Hrest. congruence.
      * split; [discriminate|].
        intros (r' & rs' & Hr & Hrest & ->)%Forall2_cons_inv_l.
        apply IH in Hrest. discriminate.
    + split; [discriminate|].
      intros (r' & rs' & Hr & Hrest & ->)%Forall2_cons_inv_l. congruence.
Qed.

Lemma lookup_steps_total h0 (m : gmap eq_key nat) flat :
  (∀ x, x ∈ flat → is_Some (m !! key_of h0 x)) → is_Ok (lookup_steps h0 m flat).
Proof.
  induction flat as [|x flat IH]; intros Hdom; [by eexists|]. simpl.
  destruct (Hdom x) as [r ->]; [left|].
  destruct IH as [rs ->]; [intros; apply Hdom; by right|]. by eexists.
Qed.

(** *** The constructor, stage by stage *)

Lemma init_inv (h : list Step.t) ops p t term dc cc e h' :
  __init__ h ops p t term dc cc = Ok (e, h') →
  ∃ m h1 steps td ps tk,
    process_steps h (visited h ops) ∅ h = Ok (m, h1)
    ∧ lookup_steps h m (flatten ops) = Ok steps
    ∧ read_termination term = Ok td
    ∧ _convert_time_to_seconds p = Ok ps
    ∧ _convert_temperature_to_kelvin t = Ok tk
    ∧ e = {| args := (ops, p, t, term);
             operating_conditions_cycles := cycles_of ops;
             cycle_lengths := map length (cycles_of ops);
             unique_steps :=
               list_to_set
                 (py_set (step_key h1)
                    (omap (λ step, m !! key_of h step) (visited h ops)));
             operating_conditions_steps := steps;
             termination_string := term;
             termination := td;
             period := ps;
             temperature := tk |}
    ∧ h' = inject_all ps tk h1
             (list_to_set
                (py_set (step_key h1)
                   (omap (λ step, m !! key_of h step) (visited h ops)))).
Proof.
  unfold __init__, visited, flatten, cycles_of. intros Hrun.
  destruct cc; [discriminate|]. destruct dc; [discriminate|].
  destruct (process_steps _ _ _ _) as [[m h1]|] eqn:Hm; [|discriminate].
  cbn in Hrun.
  destruct (lookup_steps _ _ _) as [steps|] eqn:Hsteps; [|discriminate].
  cbn in Hrun.
  destruct (read_termination term) as [td|] eqn:Htd; [|discriminate].
  cbn in Hrun.
  destruct (_convert_time_to_seconds p) as [ps|] eqn:Hps; [|discriminate].
  cbn in Hrun.
  destruct (_convert_temperature_to_kelvin t) as [tk|] eqn:Htk; [|discriminate].
  cbn in Hrun. injection Hrun as <- <-.
  exists m, h1, steps, td, ps, tk. done.
Qed.

Lemma init_intro (h : list Step.t) ops p t term m h1 steps td ps tk :
  process_steps h (visited h ops) ∅ h = Ok (m, h1) →
  lookup_steps h m (flatten ops) = Ok steps →
  read_termination term = Ok td →
  _convert_time_to_seconds p = Ok ps →
  _convert_temperature_to_kelvin t = Ok tk →
  is_Ok (__init__ h ops p t term None None).
Proof.
  unfold __init__, visited, flatten, cycles_of. intros Hm Hsteps Htd Hps Htk.
  rewrite Hm. cbn. rewrite Hsteps. cbn. rewrite Htd. cbn.
  rewrite Hps. cbn. rewrite Htk. cbn. by eexists.
Qed.

Lemma init_fields (h : list Step.t) ops p t term dc cc e h' :
  __init__ h ops p t term dc cc = Ok (e, h') →
  args e = (ops, p, t, term)
  ∧ operating_conditions_cycles e = cycles_of ops
  ∧ cycle_lengths e = map length (cycles_of ops).
Proof.
  intros (m & h1 & steps & td & ps & tk & _ & _ & _ & _ & _ & -> & _)%init_inv.
  done.
Qed.

Lemma init_defaults (h : list Step.t) ops p t term dc cc e h' :
  __init__ h ops p t term dc cc = Ok (e, h') →
  _convert_time_to_seconds p = Ok (period e)
  ∧ _convert_temperature_to_kelvin t = Ok (temperature e)
  ∧ read_termination term = Ok (termination e).
Proof.
  intros (m & h1 & steps & td & ps & tk & _ & _ & ? & ? & ? & -> & _)%init_inv.
  done.
Qed.

(** What a successful construction has done: [processed_steps] resolves
    every instruction, a step object to the first of the step objects equal
    to it and a text to a new step; [unique_steps] holds the steps resolved
    from the instructions visited, the first of each class of equal steps;
    the defaults are written to the steps of [unique_steps]. *)
Lemma init_run (h : list Step.t) ops p t term dc cc e h' :
  __init__ h ops p t term dc cc = Ok (e, h') →
  ∃ (m : gmap eq_key nat) (new : list Step.t),
    operating_conditions_steps e = resolved m h <$> flatten ops
    ∧ Forall2 (λ x r, m !! key_of h x = Some r)
              (flatten ops) (operating_conditions_steps e)
    ∧ (∀ k, is_Some (m !! k) → ∃ x, x ∈ visited h ops ∧ key_of h x = k)
    ∧ (∀ r, Prebuilt r ∈ visited h ops → resolved m h (Prebuilt r) = r)
    ∧ (∀ s, Text s ∈ flatten ops →
         (length h ≤ resolved m h (Text s) < length h + length new)%nat
         ∧ ∃ st, experiment_string s = Ok st
                 ∧ (h ++ new)%list !! resolved m h (Text s) = Some st)
    ∧ (∀ s1 s2, Text s1 ∈ flatten ops → Text s2 ∈ flatten ops →
         resolved m h (Text s1) = resolved m h (Text s2) → s1 = s2)
    ∧ length new = size (texts ops)
    ∧ unique_steps e
      = list_to_set
          (resolved m h
             <$> py_set (λ x, step_key (h ++ new) (resolved m h x)) (visited h ops))
    ∧ h' = inject_all (period e) (temperature e) (h ++ new)%list (unique_steps e).
Proof.
  intros (m & h1 & steps & td & ps & tk & Hm & Hsteps & _ & _ & _ & -> & ->)%init_inv.
  pose proof (process_steps_distinct _ _ _ _ _ _ (NoDup_visited h ops) Hm) as Hinj.
  pose proof (process_steps_spec _ _ _ _ _ _ (NoDup_visited h ops) Hm)
    as ((new & -> & Hlen) & Hout & Hpre & Htxt).
  apply lookup_steps_spec in Hsteps.
  assert (∀ x, x ∈ visited h ops → m !! key_of h x = Some (resolved m h x))
    as Hres.
  { intros [s|r] Hin; unfold resolved.
    - destruct (Htxt s Hin) as (r & st & Hr & _). cbn. by rewrite Hr.
    - by rewrite (Hpre r Hin). }
  assert (omap (λ step, m !! key_of h step) (visited h ops)
          = resolved m h <$> visited h ops) as Hvalues.
  { clear -Hres. induction (visited h ops) as [|x l IH]; [done|]. cbn.
    rewrite (Hres x) by left. cbn. f_equal. apply IH. intros y Hy. apply Hres. by right. }
  exists m, new. cbn [operating_conditions_steps unique_steps period temperature].
  split; [|split; [done|split; [|split; [|split; [|split; [|split; [|split]]]]]]].
  - clear -Hsteps. induction Hsteps as [|x r flat steps Hx _ IH]; [done|].
    cbn. unfold resolved at 1. rewrite Hx. cbn. by f_equal.
  - intros k Hk. destruct (decide (k ∈ key_of h <$> visited h ops)) as [Hin|Hnin].
    + apply list_elem_of_fmap in Hin as (x & -> & Hx). by exists x.
    + rewrite (Hout _ Hnin), lookup_empty in Hk. by destruct Hk.
  - intros r Hin. unfold resolved. by rewrite (Hpre r Hin).
  - intros s Hin%(visited_text h). destruct (Htxt s Hin) as (r & st & Hr & Hrange & Hst & Hh).
    unfold resolved. cbn. rewrite Hr. cbn. rewrite length_app in Hrange.
    split; [done|]. by exists st.
  - intros s1 s2 H1%(visited_text h) H2%(visited_text h) Heq.
    destruct (Htxt s1 H1) as (r1 & st1 & Hr1 & _).
    destruct (Htxt s2 H2) as (r2 & st2 & Hr2 & _).
    unfold resolved in Heq. cbn in Heq. rewrite Hr1, Hr2 in Heq. cbn in Heq. subst r2.
    by eapply Hinj.
  - by rewrite Hlen, visited_texts.
  - by rewrite Hvalues, py_set_go_fmap || (unfold py_set; by rewrite Hvalues, py_set_go_fmap).
  - done.
Qed.

End constructor.

Lemma resolved_key (m : gmap eq_key nat) (h : list Step.t) x y :
  key_of h x = key_of h y → resolved m h x = resolved m h y.
Proof. unfold resolved. by intros ->. Qed.

(** A set built from the images of a list: what it holds. *)
Lemma py_set_image {A B K} `{Countable B} `{EqDecision K}
    (f : A → B) (key : B → K) (V : list A) (U : gset B) :
  U = list_to_set (f <$> py_set (λ x, key (f x)) V) →
  (∀ r, r ∈ U → ∃ x, x ∈ V ∧ r = f x)
  ∧ (∀ x, x ∈ V → ∃ r0, r0 ∈ U ∧ key r0 = key (f x))
  ∧ (∀ r r', r ∈ U → r' ∈ U → key r = key r' → r = r')
  ∧ (∀ x, x ∈ V → (∀ y, y ∈ V → key (f y) = key (f x) → f y = f x) → f x ∈ U).
Proof.
  intros ->. split; [|split; [|split]].
  - intros r (x & -> & Hx)%elem_of_list_to_set%list_elem_of_fmap.
    exists x. split; [by eapply elem_of_py_set|done].
  - intros x (y & Hy & Hk)%(py_set_covers (λ x, key (f x))).
    exists (f y). split; [|done].
    apply elem_of_list_to_set, list_elem_of_fmap. by exists y.
  - intros r r' (x & -> & Hx)%elem_of_list_to_set%list_elem_of_fmap
      (x' & -> & Hx')%elem_of_list_to_set%list_elem_of_fmap Hk.
    f_equal. by eapply (py_set_distinct (λ x, key (f x))).
  - intros x (y & Hy & Hk)%(py_set_covers (λ x, key (f x))) Hfirst.
    rewrite <- (Hfirst y); [|by eapply elem_of_py_set|done].
    apply elem_of_list_to_set, list_elem_of_fmap. by exists y.
Qed.

Section construction.
Context {runtime : PyRuntime} {collaborators : Collaborators}.

(** [unique_steps] after a successful construction: its steps are steps
    of [operating_conditions_steps], every step of
    [operating_conditions_steps] is equal to one of them, no two of them are
    equal, and a step that none other of [operating_conditions_steps] is
    equal to is one of them. *)
Lemma init_unique (h : list Step.t) ops p t term dc cc e h' :
  __init__ h ops p t term dc cc = Ok (e, h') →
  (∀ r, r ∈ unique_steps e → r ∈ operating_conditions_steps e)
  ∧ (∀ r, r ∈ operating_conditions_steps e →
       ∃ r0, r0 ∈ unique_steps e ∧ step_key h' r0 = step_key h' r)
  ∧ (∀ r r', r ∈ unique_steps e → r' ∈ unique_steps e →
       step_key h' r = step_key h' r' → r = r')
  ∧ (∀ r, r ∈ operating_conditions_steps e →
       (∀ r', r' ∈ operating_conditions_steps e →
          step_key h' r' = step_key h' r → r' = r) →
       r ∈ unique_steps e).
Proof.
  intros (m & new & Hsteps & _ & _ & _ & _ & _ & _ & HU & ->)%init_run.
  apply (py_set_image (resolved m h) (step_key (h ++ new))) in HU
    as (HU1 & HU2 & HU3 & HU4).
  rewrite Hsteps. setoid_rewrite step_key_inject.
  assert (∀ r, r ∈ resolved m h <$> flatten ops
               ↔ ∃ x, x ∈ visited h ops ∧ r = resolved m h x) as Hvals.
  { intros r. rewrite list_elem_of_fmap. split.
    - intros (x & -> & (y & Hy & Hk)%(visited_covers h)). exists y.
      split; [done|]. by apply resolved_key.
    - intros (x & Hx & ->). exists x. split; [done|]. by eapply visited_flat. }
  split; [|split; [|split]].
  - intros r Hr. apply Hvals. by apply HU1.
  - intros r (x & Hx & ->)%Hvals. by apply HU2.
  - done.
  - intros r (x & Hx & ->)%Hvals Hfirst. apply HU4; [done|].
    intros y Hy. apply Hfirst, Hvals. by exists y.
Qed.

(** Where a step of [unique_steps] comes from. *)
Lemma unique_steps_origin (h : list Step.t) ops p t term dc cc e h' r :
  __init__ h ops p t term dc cc = Ok (e, h') →
  r ∈ unique_steps e →
  (Prebuilt r ∈ flatten ops
   ∧ ∃ i, flatten ops !! i = Some (Prebuilt r)
          ∧ operating_conditions_steps e !! i = Some r)
  ∨ ∃ s st, Text s ∈ flatten ops ∧ (length h ≤ r < length h')%nat
            ∧ experiment_string s = Ok st
            ∧ h' !! r = Some (Step.with_defaults (period e) (temperature e) st)
            ∧ ∃ i, flatten ops !! i = Some (Text s)
                   ∧ operating_conditions_steps e !! i = Some r.
Proof.
  intros Hrun Hr. pose proof Hrun as Hrun'.
  apply init_run in Hrun' as (m & new & Hsteps & _ & _ & Hpre & Htxt & _ & _ & HU & Hh).
  pose proof HU as HU'.
  apply (py_set_image (resolved m h) (step_key (h ++ new))) in HU'
    as (HU1 & _).
  destruct (HU1 r Hr) as (x & Hx & ->).
  pose proof (visited_flat _ _ _ Hx) as Hflat.
  pose proof Hflat as (i & Hi)%list_elem_of_lookup.
  assert (operating_conditions_steps e !! i = Some (resolved m h x)) as Hstep
    by (by rewrite Hsteps, list_lookup_fmap, Hi).
  destruct x as [s|r].
  - right. destruct (Htxt s Hflat) as (Hrange & st & Hst & Hnew).
    exists s, st. split; [done|]. rewrite Hh, inject_all_length, length_app.
    split; [done|]. split; [done|]. split; [|by exists i].
    by rewrite inject_all_lookup, decide_True, Hnew.
  - left. rewrite (Hpre r Hx) in *. split; [done|]. by exists i.
Qed.

Lemma init_store (h : list Step.t) ops p t term dc cc e h' :
  __init__ h ops p t term dc cc = Ok (e, h') →
  (length h ≤ length h')%nat
  ∧ ∀ r, (r < length h)%nat →
      h' !! r = if decide (r ∈ unique_steps e)
                then Step.with_defaults (period e) (temperature e) <$> h !! r
                else h !! r.
Proof.
  intros (m & new & _ & _ & _ & _ & _ & _ & _ & _ & ->)%init_run.
  rewrite inject_all_length, length_app. split; [lia|].
  intros r Hr. rewrite inject_all_lookup, lookup_app_l by done. done.
Qed.

(** The constructor returns whenever the grammar accepts every text, the
    termination parses and the two conversions return. *)
Lemma init_succeeds (h : list Step.t) ops p t term :
  (∀ s, Text s ∈ flatten ops → is_Ok (experiment_string s)) →
  is_Ok (read_termination term) →
  is_Ok (_convert_time_to_seconds p) →
  is_Ok (_convert_temperature_to_kelvin t) →
  is_Ok (__init__ h ops p t term None None).
Proof.
  intros Hgrammar [td Htd] [ps Hps] [tk Htk].
  destruct (process_steps_total h (visited h ops) ∅ h) as [[m h1] Hm].
  { intros s Hin. apply Hgrammar. by apply (visited_text h). }
  destruct (lookup_steps_total h m (flatten ops)) as [steps Hsteps].
  { apply (process_steps_spec _ _ _ _ _ _ (NoDup_visited h ops)) in Hm
      as (_ & _ & Hpre & Htxt).
    intros x (y & Hy & <-)%(visited_covers h). destruct y as [s|r].
    - destruct (Htxt s Hy) as (r & st & Hr & _). cbn [key_of].
      rewrite Hr. by eexists.
    - rewrite (Hpre r Hy). by eexists. }
  by eapply init_intro.
Qed.

(** A construction that succeeded succeeds again on the same arguments,
    whatever the store: the grammar and the conversions are functions of
    their arguments. *)
Lemma init_again (h : list Step.t) ops p t term dc cc e h' (h0 : list Step.t) :
  __init__ h ops p t term dc cc = Ok (e, h') →
  is_Ok (__init__ h0 ops p t term None None).
Proof.
  intros Hrun. pose proof (init_defaults _ _ _ _ _ _ _ _ _ Hrun) as (Hps & Htk & Htd).
  apply init_run in Hrun as (m & new & _ & _ & _ & _ & Htxt & _).
  apply init_succeeds; [|by eexists..].
  intros s Hin. destruct (Htxt s Hin) as (_ & st & -> & _). by eexists.
Qed.

End construction.

Lemma prebuilt_valid_spec (h : list Step.t) ops :
  prebuilt_valid h ops = true ↔ ∀ r, Prebuilt r ∈ flatten ops → (r < length h)%nat.
Proof.
  unfold prebuilt_valid. rewrite forallb_forall. split.
  - intros Hall r Hin%list_elem_of_In. apply Hall in Hin.
    by apply bool_decide_eq_true in Hin.
  - intros Hall [s|r] Hin%list_elem_of_In; [done|].
    apply bool_decide_eq_true. by apply Hall.
Qed.

Lemma all_text_spec ops :
  all_text ops = true ↔ ∀ r, Prebuilt r ∉ flatten ops.
Proof.
  unfold all_text. rewrite forallb_forall. split.
  - intros Hall r Hin%list_elem_of_In. by apply Hall in Hin.
  - intros Hall [s|r] Hin%list_elem_of_In; [done|]. by apply Hall in Hin.
Qed.


Section claims.
Context {runtime : PyRuntime} {collaborators : Collaborators}.

(** C9: the cycle lengths are the lengths of the cycles, index by index,
    and there is one cycle per operating condition; when the operating
    conditions are a flat list of N single instructions, each becomes a cycle
    of length one and [cycle_lengths] is N times 1. *)
Theorem cycle_lengths_shape (h : list Step.t) ops p t term dc cc e h' :
  __init__ h ops p t term dc cc = Ok (e, h') →
  cycle_lengths e = map length (operating_conditions_cycles e)
  ∧ (∀ i, cycle_lengths e !! i = length <$> operating_conditions_cycles e !! i)
  ∧ length (operating_conditions_cycles e) = length ops
  ∧ ∀ instructions, ops = map Single instructions →
      operating_conditions_cycles e = map (λ i, [i]) instructions
      ∧ Forall (λ cycle, length cycle = 1%nat) (operating_conditions_cycles e)
      ∧ cycle_lengths e = replicate (length instructions) 1%nat.
Proof.
  intros (_ & -> & ->)%init_fields.
  split; [done|]. split; [intros i; apply list_lookup_fmap|].
  split; [apply length_map|].
  intros instructions ->. unfold cycles_of. rewrite <- !list_fmap_compose.
  split; [done|]. split.
  - apply Forall_fmap, Forall_forall. done.
  - induction instructions as [|x l IH]; simpl; [done|]. by rewrite <- IH.
Qed.






(** A second construction from the same arguments, in a later store: the
    same instructions are visited in the same order, so a step object
    resolves to the same object, a text to a new step built as the first
    time, and the steps kept in [unique_steps] stand at the same places. *)
Lemma copy_run (h : list Step.t) ops p t term dc cc e h'
    (later : list Step.t) e2 h'' :
  __init__ h ops p t term dc cc = Ok (e, h') →
  prebuilt_valid h ops = true →
  __init__ (h' ++ later)%list ops p t term None None = Ok (e2, h'') →
  (∀ i x r r2, flatten ops !! i = Some x →
     operating_conditions_steps e !! i = Some r →
     operating_conditions_steps e2 !! i = Some r2 →
     match x with
     | Text s =>
         (length h ≤ r < length h')%nat
         ∧ (length (h' ++ later)%list ≤ r2 < length h'')%nat
         ∧ (r ∈ unique_steps e ↔ r2 ∈ unique_steps e2)
         ∧ ∃ st, experiment_string s = Ok st
                 ∧ h' !! r = Some (if decide (r ∈ unique_steps e)
                                   then Step.with_defaults (period e) (temperature e) st
                                   else st)
                 ∧ h'' !! r2 = Some (if decide (r2 ∈ unique_steps e2)
                                     then Step.with_defaults (period e2) (temperature e2) st
                                     else st)
     | Prebuilt _ => r2 = r ∧ Prebuilt r ∈ flatten ops ∧ (r < length h)%nat
     end)
  ∧ (∀ r, r ∈ unique_steps e2 → (r < length (h' ++ later)%list)%nat →
       r ∈ unique_steps e ∧ Prebuilt r ∈ flatten ops)
  ∧ (∀ r2, r2 ∈ unique_steps e2 →
       (length (h' ++ later)%list ≤ r2 < length h'')%nat ∨ Prebuilt r2 ∈ flatten ops).
Proof.
  intros Hrun Hvalid Hcopy. rewrite prebuilt_valid_spec in Hvalid.
  destruct (init_run _ _ _ _ _ _ _ _ _ Hrun)
    as (m & new & Hsteps & _ & _ & Hpre & Htxt & Hinj & _ & HU & Hh).
  destruct (init_run _ _ _ _ _ _ _ _ _ Hcopy)
    as (m2 & new2 & Hsteps2 & _ & _ & Hpre2 & Htxt2 & Hinj2 & _ & HU2 & Hh2).
  set (H2 := (h' ++ later)%list) in *.
  assert (length h' = (length h + length new)%nat) as Hlen'
    by (by rewrite Hh, inject_all_length, length_app).
  assert (length h'' = (length H2 + length new2)%nat) as Hlen''
    by (by rewrite Hh2, inject_all_length, length_app).
  assert (length h' ≤ length H2)%nat as HlenH2
    by (unfold H2; rewrite length_app; lia).
  assert (∀ r, (r < length h)%nat → step_key H2 r = step_key h r) as Hold.
  { intros r Hr. unfold H2. rewrite step_key_app by lia.
    rewrite Hh, step_key_inject. by apply step_key_app. }
  assert (∀ x, x ∈ flatten ops → key_of H2 x = key_of h x) as Hid.
  { intros [s|r] Hx; [done|]. cbn. apply Hold. by apply Hvalid. }
  assert (visited H2 ops = visited h ops) as Hvis.
  { unfold visited. do 2 f_equal. by apply py_set_go_ext. }
  rewrite Hvis in *.
  (* the instructions visited, one by one *)
  assert (∀ y, y ∈ visited h ops →
            match y with
            | Text s => Text s ∈ flatten ops
            | Prebuilt r1 =>
                (r1 < length h)%nat ∧ resolved m h y = r1 ∧ resolved m2 H2 y = r1
                ∧ Prebuilt r1 ∈ flatten ops
            end) as HV.
  { intros [s|r1] Hy; pose proof (visited_flat _ _ _ Hy) as Hflat; [done|].
    split; [by apply Hvalid|]. split; [by apply Hpre|]. split; [by apply Hpre2|done]. }
  assert (∀ x, x ∈ visited h ops →
            step_key (H2 ++ new2) (resolved m2 H2 x)
            = step_key (h ++ new) (resolved m h x)) as HkeyV.
  { intros [s|r1] Hx; pose proof (HV _ Hx) as Hcase.
    - destruct (Htxt s Hcase) as (_ & st & Hst & Hnew).
      destruct (Htxt2 s Hcase) as (_ & st2 & Hst2 & Hnew2).
      assert (st2 = st) as -> by congruence.
      unfold step_key. by rewrite Hnew, Hnew2.
    - destruct Hcase as (Hlt & -> & -> & _).
      rewrite !step_key_app by lia. by apply Hold. }
  assert (py_set (λ x, step_key (H2 ++ new2) (resolved m2 H2 x)) (visited h ops)
          = py_set (λ x, step_key (h ++ new) (resolved m h x)) (visited h ops))
    as HW by (by apply py_set_go_ext).
  rewrite HW in HU2.
  set (W := py_set (λ x, step_key (h ++ new) (resolved m h x)) (visited h ops)) in *.
  assert (∀ y, y ∈ W → y ∈ visited h ops) as HWV by (intros y; apply elem_of_py_set).
  assert (∀ s, Text s ∈ flatten ops →
            (resolved m h (Text s) ∈ unique_steps e ↔ Text s ∈ W)
            ∧ (resolved m2 H2 (Text s) ∈ unique_steps e2 ↔ Text s ∈ W)) as Htext.
  { intros s Hs.
    destruct (Htxt s Hs) as (Hrange & _). destruct (Htxt2 s Hs) as (Hrange2 & _).
    rewrite HU, HU2, !elem_of_list_to_set, !list_elem_of_fmap. split; split.
    - intros ([s'|r1] & Heq & Hy); pose proof (HV _ (HWV _ Hy)) as Hcase.
      + by rewrite (Hinj s s' Hs Hcase Heq).
      + destruct Hcase as (Hlt & Hr1 & _). rewrite Hr1 in Heq. lia.
    - intros Hy. by exists (Text s).
    - intros ([s'|r1] & Heq & Hy); pose proof (HV _ (HWV _ Hy)) as Hcase.
      + by rewrite (Hinj2 s s' Hs Hcase Heq).
      + destruct Hcase as (Hlt & _ & Hr1 & _). rewrite Hr1 in Heq. lia.
    - intros Hy. by exists (Text s). }
  split; [|split].
  - intros i x r r2 Hi Hr Hr2.
    rewrite Hsteps, list_lookup_fmap, Hi in Hr. injection Hr as <-.
    rewrite Hsteps2, list_lookup_fmap, Hi in Hr2. injection Hr2 as <-.
    assert (x ∈ flatten ops) as Hx by (by eapply list_elem_of_lookup_2).
    destruct x as [s|r0].
    + destruct (Htxt s Hx) as (Hrange & st & Hst & Hnew).
      destruct (Htxt2 s Hx) as (Hrange2 & st2 & Hst2 & Hnew2).
      assert (st2 = st) as -> by congruence.
      destruct (Htext s Hx) as [H1 H2'].
      split; [lia|]. split; [lia|]. split; [by rewrite H1, H2'|].
      exists st. split; [done|]. split.
      * rewrite Hh at 1. rewrite inject_all_lookup, Hnew. by case_decide.
      * rewrite Hh2 at 1. rewrite inject_all_lookup, Hnew2. by case_decide.
    + destruct (visited_covers h ops _ Hx) as (y & Hy & Hk).
      pose proof (HV _ Hy) as Hcase. destruct y as [s|r1].
      { symmetry in Hk. by apply key_of_text_inv in Hk. }
      destruct Hcase as (Hlt & Hr1 & Hr1' & Hflat).
      rewrite <- (resolved_key m h _ _ Hk), Hr1.
      rewrite <- (resolved_key m2 H2 (Prebuilt r1) (Prebuilt r0)), Hr1'; [done|].
      rewrite !Hid by (done || by eapply visited_flat). done.
  - intros r Hr Hlt. rewrite HU2 in Hr.
    apply elem_of_list_to_set, list_elem_of_fmap in Hr as (y & -> & Hy).
    pose proof (HV _ (HWV _ Hy)) as Hcase. destruct y as [s|r1].
    + destruct (Htxt2 s Hcase) as (Hrange2 & _). lia.
    + destruct Hcase as (_ & Hr1 & -> & Hflat). split; [|done].
      rewrite HU. apply elem_of_list_to_set, list_elem_of_fmap.
      exists (Prebuilt r1). by rewrite Hr1.
  - intros r2 Hr2.
    destruct (unique_steps_origin _ _ _ _ _ _ _ _ _ _ Hcopy Hr2)
      as [[Hin _]|(s & st & _ & Hrange & _)]; [by right|by left].
Qed.

(** C4, amended: [copy], made at any later time (the store has grown by
    [later], the objects that existed are as construction left them),
    succeeds and builds anew every step that comes from a text: at such a
    position the original's step is an object that existed before the copy
    and the copy's step is a new one.  At a position that holds a step
    object, the original and the copy hold one and the same object, one of
    the step objects given.  With text only, the two experiments share no
    step.  The copy leaves every object that existed unchanged, and a change
    to a new step of the copy is not seen through a step of the original,
    nor the other way round. *)
Theorem copy_isolation (h : list Step.t) ops p t term dc cc e h'
    (later : list Step.t) :
  __init__ h ops p t term dc cc = Ok (e, h') →
  prebuilt_valid h ops = true →
  ∃ e2 h'',
    copy e (h' ++ later)%list = Ok (e2, h'')
    ∧ (∀ r, r ∈ unique_steps e → (r < length h')%nat)
    ∧ (∀ r2, r2 ∈ unique_steps e2 →
         (length (h' ++ later)%list ≤ r2 < length h'')%nat
         ∨ Prebuilt r2 ∈ flatten ops)
    ∧ (∀ i s r r2, flatten ops !! i = Some (Text s) →
         operating_conditions_steps e !! i = Some r →
         operating_conditions_steps e2 !! i = Some r2 →
         (r < length h')%nat ∧ (length (h' ++ later)%list ≤ r2)%nat)
    ∧ (∀ i r0 r r2, flatten ops !! i = Some (Prebuilt r0) →
         operating_conditions_steps e !! i = Some r →
         operating_conditions_steps e2 !! i = Some r2 →
         r2 = r ∧ Prebuilt r ∈ flatten ops ∧ (r < length h)%nat)
    ∧ (all_text ops = true → unique_steps e ## unique_steps e2)
    ∧ (∀ r, (r < length (h' ++ later)%list)%nat → h'' !! r = (h' ++ later)%list !! r)
    ∧ (∀ r r2 (change : Step.t → Step.t),
         r ∈ unique_steps e → r2 ∈ unique_steps e2 →
         (length (h' ++ later)%list ≤ r2)%nat →
         alter change r2 h'' !! r = h' !! r
         ∧ alter change r h'' !! r2 = h'' !! r2).
Proof.
  intros Hrun Hvalid.
  destruct (init_fields _ _ _ _ _ _ _ _ _ Hrun) as (Hargs & _).
  destruct (init_again _ _ _ _ _ _ _ _ _ (h' ++ later)%list Hrun)
    as [[e2 h''] Hcopy].
  exists e2, h''. unfold copy. rewrite Hargs. split; [done|].
  destruct (copy_run _ _ _ _ _ _ _ _ _ _ _ _ Hrun Hvalid Hcopy) as (HA & HB & HC).
  rewrite prebuilt_valid_spec in Hvalid.
  destruct (init_store _ _ _ _ _ _ _ _ _ Hrun) as [Hlen Hstore].
  destruct (init_store _ _ _ _ _ _ _ _ _ Hcopy) as [Hlen2 Hstore2].
  destruct (init_defaults _ _ _ _ _ _ _ _ _ Hrun) as (Hp & Ht & _).
  destruct (init_defaults _ _ _ _ _ _ _ _ _ Hcopy) as (Hp2 & Ht2 & _).
  assert (period e2 = period e) as Hpe by congruence.
  assert (temperature e2 = temperature e) as Hte by congruence.
  pose proof (length_app h' later) as Hlater.
  assert (∀ r, r ∈ unique_steps e → (r < length h')%nat) as Hold.
  { intros r Hr.
    destruct (unique_steps_origin _ _ _ _ _ _ _ _ _ _ Hrun Hr)
      as [[Hin%Hvalid _]|(s & st & _ & Hrange & _)]; lia. }
  assert (∀ r, (r < length (h' ++ later)%list)%nat →
            h'' !! r = (h' ++ later)%list !! r) as Hkept.
  { intros r Hr. rewrite (Hstore2 r Hr). case_decide as Hin; [|done].
    destruct (HB r Hin Hr) as [Hr1 Hpre]. pose proof (Hvalid r Hpre) as Hlt.
    rewrite lookup_app_l by lia.
    rewrite (Hstore r Hlt), decide_True by done.
    rewrite Hpe, Hte. destruct (h !! r); [|done]. cbn.
    by rewrite with_defaults_idemp. }
  split; [done|]. split; [done|]. split.
  { intros i s r r2 Hi Hr Hr2.
    destruct (HA i _ r r2 Hi Hr Hr2) as (? & ? & _). lia. }
  split.
  { intros i r0 r r2 Hi Hr Hr2. exact (HA i _ r r2 Hi Hr Hr2). }
  split.
  { intros Htext. rewrite all_text_spec in Htext.
    apply elem_of_disjoint. intros r Hr1 Hr2.
    apply Hold in Hr1. destruct (HC r Hr2) as [?|Hpre]; [lia|].
    by apply Htext in Hpre. }
  split; [done|].
  intros r r2 change Hr Hr2 Hge. apply Hold in Hr.
  rewrite !list_lookup_alter_ne by lia. split; [|done].
  rewrite Hkept by lia. by rewrite lookup_app_l.
Qed.

End claims.

(** The pass does not depend on the order in which the set is visited. *)
Lemma inject_all_order_independent (runtime1 runtime2 : PyRuntime) p t
    (h : list Step.t) (U : gset nat) :
  @inject_all runtime1 p t h U = @inject_all runtime2 p t h U.
Proof. apply list_eq. intros i. by rewrite !inject_all_lookup. Qed.

(** ** The claims on concrete experiments *)

Lemma cycle_lengths_shape_witness :
  ∃ e h',
    @__init__ elements_runtime spec_collaborators []
      (map Single [Text "Discharge at 1 C for 1 hour"; Text "Rest for 1 hour";
                   Text "Discharge at 1 C for 1 hour"])
      (Some "1 minute") None None None None = Ok (e, h')
    ∧ cycle_lengths e = [1; 1; 1]%nat.
Proof.
  destruct (@__init__ elements_runtime spec_collaborators [] _ _ _ _ _ _)
    as [[e h']|err] eqn:Hrun; [|vm_compute in Hrun; discriminate].
  exists e, h'. split; [reflexivity|].
  destruct (cycle_lengths_shape _ _ _ _ _ _ _ _ _ Hrun) as (_ & _ & _ & Hflat).
  destruct (Hflat _ eq_refl) as (_ & _ & ->). reflexivity.
Defined.







(** An experiment built from a step object and its copy hold that same
    object. *)
Lemma copy_shares_prebuilt_step :
  ∃ e h' e2 h'',
    @__init__ elements_runtime spec_collaborators [current_1A]
      [Single (Prebuilt 0)] (Some "1 minute") None None None None = Ok (e, h')
    ∧ @copy elements_runtime spec_collaborators e h' = Ok (e2, h'')
    ∧ operating_conditions_steps e = [0%nat]
    ∧ operating_conditions_steps e2 = [0%nat]
    ∧ ¬ (unique_steps e ## unique_steps e2).
Proof.
  eexists _, _, _, _. split; [vm_compute; reflexivity|].
  split; [vm_compute; reflexivity|]. split; [reflexivity|]. split; [reflexivity|].
  intros Hdisj.
  apply (Hdisj 0%nat); refine (bool_decide_unpack _ _); vm_compute; exact I.
Qed.

Lemma copy_isolation_witness :
  ∃ e h' e2 h'',
    @__init__ elements_runtime spec_collaborators []
      [Tuple [Text "Discharge at 1 C for 1 hour"; Text "Rest for 1 hour"];
       Single (Text "Rest for 1 hour")]
      (Some "1 minute") None None None None = Ok (e, h')
    ∧ @copy elements_runtime spec_collaborators e (h' ++ [current_1A])%list
      = Ok (e2, h'')
    ∧ unique_steps e ## unique_steps e2.
Proof.
  destruct (@__init__ elements_runtime spec_collaborators [] _ _ _ _ _ _)
    as [[e h']|err] eqn:Hrun; [|vm_compute in Hrun; discriminate].
  destruct (copy_isolation _ _ _ _ _ _ _ e h' [current_1A] Hrun)
    as (e2 & h'' & Hcopy & _ & _ & _ & _ & Hdisj & _); [reflexivity|].
  exists e, h', e2, h''. split; [reflexivity|]. split; [exact Hcopy|].
  apply Hdisj. reflexivity.
Defined.

(** * Further properties *)

(** ** More on the termination parser *)

(** What one entry does to the mapping does not depend on the mapping: it
    sets one key, [capacity] or [voltage], to a value read off the entry. *)
Lemma read_term_shape term d d' :
  read_term term d = Ok d' →
  ∃ k v, (k = "capacity" ∨ k = "voltage")
         ∧ ∀ d0, read_term term d0 = Ok (<[k := v]> d0).
Proof.
  unfold read_term. destruct (last (Str.split_ws term)) as [w|]; [|discriminate].
  destruct (String.eqb w "capacity").
  - cbn zeta. destruct (Str.endswith _ "%").
    + destruct (first _) as [x|]; [|discriminate]. cbn.
      destruct (float x) as [v|]; [|discriminate]. cbn. intros _.
      exists "capacity", (v, "%"). split; [by left|done].
    + destruct (Str.endswith _ "Ah"); [|discriminate].
      destruct (first _) as [x|]; [|discriminate]. cbn.
      destruct (float x) as [v|]; [|discriminate]. cbn. intros _.
      exists "capacity", (v, "Ah"). split; [by left|done].
  - destruct (Str.endswith term "V"); [|discriminate].
    destruct (first _) as [x|]; [|discriminate]. cbn.
    destruct (float x) as [v|]; [|discriminate]. cbn. intros _.
    exists "voltage", (v, "V"). split; [by right|done].
Qed.

(** Whether an entry is refused, and with which error, does not depend on
    the mapping either. *)
Lemma read_term_raise_indep term d d0 e :
  read_term term d = Raise e → read_term term d0 = Raise e.
Proof.
  unfold read_term. destruct (last (Str.split_ws term)) as [w|]; [|done].
  destruct (String.eqb w "capacity").
  - cbn zeta. destruct (Str.endswith _ "%").
    + destruct (first _) as [x|]; [|done]. cbn.
      destruct (float x) as [v|]; [discriminate|done].
    + destruct (Str.endswith _ "Ah"); [|done].
      destruct (first _) as [x|]; [|done]. cbn.
      destruct (float x) as [v|]; [discriminate|done].
  - destruct (Str.endswith term "V"); [|done].
    destruct (first _) as [x|]; [|done]. cbn.
    destruct (float x) as [v|]; [discriminate|done].
Qed.

Lemma read_terms_app l1 l2 d :
  read_terms (l1 ++ l2) d = read_terms l1 d ≫= read_terms l2.
Proof.
  revert d. induction l1 as [|t l1 IH]; intros d; [done|]. cbn.
  destruct (read_term t d) as [d1|]; [|done]. cbn. apply IH.
Qed.

Lemma read_terms_union l d d' :
  read_terms l d = Ok d' ↔ ∃ dl, read_terms l ∅ = Ok dl ∧ d' = dl ∪ d.
Proof.
  revert d d'. induction l as [|t l IH]; intros d d'; cbn.
  - split.
    + intros [= <-]. exists ∅. by rewrite (left_id_L ∅ (∪)).
    + intros (dl & [= <-] & ->). by rewrite (left_id_L ∅ (∪)).
  - destruct (read_term t d) as [d1|e] eqn:Ht; cbn.
    + destruct (read_term_shape _ _ _ Ht) as (k & v & _ & Hshape).
      rewrite Hshape in Ht. injection Ht as <-. rewrite (Hshape ∅). cbn.
      rewrite IH. split.
      * intros (dr & Hdr & ->). exists (dr ∪ <[k:=v]> ∅). split.
        -- apply IH. by exists dr.
        -- by rewrite insert_empty, <- (assoc_L (∪)), <- insert_union_singleton_l.
      * intros (dl & (dr & Hdr & ->)%IH & ->). exists dr. split; [done|].
        by rewrite insert_empty, <- (assoc_L (∪)), <- insert_union_singleton_l.
    + rewrite (read_term_raise_indep _ _ ∅ _ Ht). cbn. split; [discriminate|].
      by intros (dl & ? & _).
Qed.

Lemma read_termination_parts_aux l1 l2 d :
  read_termination (Some (TermList (l1 ++ l2))) = Ok d ↔
  ∃ d1 d2, read_termination (Some (TermList l1)) = Ok d1
           ∧ read_termination (Some (TermList l2)) = Ok d2
           ∧ d = d2 ∪ d1.
Proof.
  cbn. rewrite read_terms_app. split.
  - destruct (read_terms l1 ∅) as [d1|] eqn:H1; [|discriminate]. cbn.
    intros (d2 & H2 & ->)%read_terms_union. by exists d1, d2.
  - intros (d1 & d2 & -> & H2 & ->). cbn. apply read_terms_union. by exists d2.
Qed.

(** X1: parsing a list of entries composes.  A concatenation parses exactly
    when both halves parse, and its mapping is the mapping of the second half
    completed by that of the first: where both halves give the same kind, the
    later entry wins. *)
Theorem read_termination_parts l1 l2 d :
  read_termination (Some (TermList (l1 ++ l2))) = Ok d ↔
  ∃ d1 d2, read_termination (Some (TermList l1)) = Ok d1
           ∧ read_termination (Some (TermList l2)) = Ok d2
           ∧ d = d2 ∪ d1.
Proof. apply read_termination_parts_aux. Qed.

(** X2: a parsed termination holds no key other than [capacity] and
    [voltage], so at most one entry of each kind however many were given. *)
Theorem read_termination_keys termination d :
  read_termination termination = Ok d →
  dom d ⊆ ({[ "capacity"; "voltage" ]} : gset string) ∧ (size d ≤ 2)%nat.
Proof.
  assert (∀ l d0 d1, read_terms l d0 = Ok d1 →
            dom d1 ⊆ ({[ "capacity"; "voltage" ]} : gset string) ∪ dom d0) as Hterms.
  { induction l as [|t l IH]; intros d0 d1; cbn.
    - intros [= <-]. apply union_subseteq_r.
    - destruct (read_term t d0) as [d2|] eqn:Ht; [|discriminate]. cbn.
      intros Hrest%IH.
      destruct (read_term_shape _ _ _ Ht) as (k & v & Hk & Hshape).
      rewrite Hshape in Ht. injection Ht as <-.
      rewrite dom_insert_L in Hrest. intros x Hx%Hrest.
      rewrite !elem_of_union, !elem_of_singleton in *.
      destruct Hk as [-> | ->]; tauto. }
  intros Hrun.
  assert (dom d ⊆ ({[ "capacity"; "voltage" ]} : gset string)) as Hdom.
  { assert (∀ l, read_terms l ∅ = Ok d →
              dom d ⊆ ({[ "capacity"; "voltage" ]} : gset string)) as Hempty.
    { intros l Hl%Hterms. by rewrite dom_empty_L, (right_id_L ∅ (∪)) in Hl. }
    destruct termination as [[s|l]|]; unfold read_termination in Hrun.
    - by eapply Hempty.
    - by eapply Hempty.
    - injection Hrun as <-. rewrite dom_empty_L. apply empty_subseteq. }
  split; [done|]. rewrite <- size_dom.
  etransitivity; [apply subseteq_size, Hdom|].
  rewrite size_union, !size_singleton; [done|].
  by apply disjoint_singleton_l, not_elem_of_singleton.
Qed.

(** X3: entries of different kinds may come in either order: when the two
    halves of a list parse to mappings with no key in common, swapping the
    halves gives the same result. *)
Theorem read_termination_swap l1 l2 d1 d2 :
  read_termination (Some (TermList l1)) = Ok d1 →
  read_termination (Some (TermList l2)) = Ok d2 →
  dom d1 ## dom d2 →
  read_termination (Some (TermList (l1 ++ l2))) = Ok (d1 ∪ d2)
  ∧ read_termination (Some (TermList (l2 ++ l1))) = Ok (d1 ∪ d2).
Proof.
  intros H1 H2 Hdisj. split.
  - apply read_termination_parts_aux. exists d1, d2. repeat split; try done.
    apply map_union_comm. by apply map_disjoint_dom.
  - apply read_termination_parts_aux. by exists d2, d1.
Qed.

(** X4: the parser stops at the first entry it refuses.  When the entries
    before [bad] parse and [bad] on its own is refused with [e], the whole
    list is refused with [e], whatever comes after [bad]. *)
Theorem read_termination_first_error before bad after d e :
  read_termination (Some (TermList before)) = Ok d →
  read_termination (Some (TermStr bad)) = Raise e →
  read_termination (Some (TermList (before ++ bad :: after))) = Raise e.
Proof.
  cbn. intros Hbefore Hbad. rewrite read_terms_app, Hbefore. cbn.
  destruct (read_term bad ∅) as [?|e'] eqn:Hb; [discriminate|].
  injection Hbad as ->. by rewrite (read_term_raise_indep _ _ d _ Hb).
Qed.

Lemma split_ws_blank l : forallb Str.isspace l = true → Str.split_ws_go l None = [].
Proof.
  induction l as [|c l IH]; [done|]. cbn. intros [Hc Hl]%andb_prop.
  rewrite Hc. by apply IH.
Qed.

(** X5: an entry that is empty or all whitespace has no last word: it is
    refused with [IndexError], not with one of the two messages the parser
    writes. *)
Theorem read_termination_blank term :
  forallb Str.isspace (Str.chars term) = true →
  read_termination (Some (TermStr term))
  = Raise (IndexError "list index out of range").
Proof.
  intros Hblank. cbn. unfold read_term, Str.split_ws.
  by rewrite (split_ws_blank _ Hblank).
Qed.

(** X6: the errors of the parser.  A refusal is one of four: no last word,
    the capacity-format message, the capacity-or-voltage message, or the
    error of [float] on a magnitude, which names the text [float] was given
    and is passed on as it is. *)
Theorem read_termination_errors termination e :
  read_termination termination = Raise e →
  e = IndexError "list index out of range"
  ∨ e = capacity_format_error
  ∨ e = termination_kind_error
  ∨ ∃ text, e = ValueError ("could not convert string to float: " ++ Str.repr text).
Proof.
  assert (∀ x, float x = Raise e →
            ∃ text, e = ValueError ("could not convert string to float: "
                                    ++ Str.repr text))
    as Hfloat.
  { intros x. unfold float, Float.of_string.
    destruct (Float.parse _); [discriminate|]. intros [= <-]. by exists x. }
  assert (∀ l, first l = Raise e → e = IndexError "list index out of range")
    as Hfirst by (intros [|??]; [by intros [= <-]|discriminate]).
  assert (∀ t d, read_term t d = Raise e →
            e = IndexError "list index out of range"
            ∨ e = capacity_format_error
            ∨ e = termination_kind_error
            ∨ ∃ text, e = ValueError ("could not convert string to float: "
                                      ++ Str.repr text)) as Hterm.
  { intros t d. unfold read_term.
    destruct (last (Str.split_ws t)) as [w|]; [|intros [= <-]; by left].
    destruct (String.eqb w "capacity"); cbn zeta.
    - destruct (Str.endswith _ "%").
      + destruct (first _) as [x|] eqn:Hx; cbn;
          [|intros [= <-]; left; by eapply Hfirst].
        destruct (float x) eqn:Hv; cbn; [discriminate|].
        intros [= <-]. do 3 right. by eapply Hfloat.
      + destruct (Str.endswith _ "Ah"); [|intros [= <-]; right; by left].
        destruct (first _) as [x|] eqn:Hx; cbn;
          [|intros [= <-]; left; by eapply Hfirst].
        destruct (float x) eqn:Hv; cbn; [discriminate|].
        intros [= <-]. do 3 right. by eapply Hfloat.
    - destruct (Str.endswith t "V"); [|intros [= <-]; right; right; by left].
      destruct (first _) as [x|] eqn:Hx; cbn;
        [|intros [= <-]; left; by eapply Hfirst].
      destruct (float x) eqn:Hv; cbn; [discriminate|].
      intros [= <-]. do 3 right. by eapply Hfloat. }
  assert (∀ l d, read_terms l d = Raise e →
            e = IndexError "list index out of range"
            ∨ e = capacity_format_error
            ∨ e = termination_kind_error
            ∨ ∃ text, e = ValueError ("could not convert string to float: "
                                      ++ Str.repr text)) as Hterms.
  { induction l as [|t l IH]; intros d; cbn; [discriminate|].
    destruct (read_term t d) as [d1|e1] eqn:Ht; cbn; [apply IH|].
    intros [= ->]. by eapply Hterm. }
  destruct termination as [[s|l]|]; unfold read_termination;
    [apply Hterms..|discriminate].
Qed.

Lemma chars_app a b : Str.chars (a ++ b) = (Str.chars a ++ Str.chars b)%list.
Proof.
  unfold Str.chars. induction a as [|c a IH]; [done|].
  cbn [app list_ascii_of_string]. rewrite <- IH. reflexivity.
Qed.

Lemma of_chars_chars s : Str.of_chars (Str.chars s) = s.
Proof. apply string_of_list_ascii_of_string. Qed.

Lemma chars_of_chars l : Str.chars (Str.of_chars l) = l.
Proof. apply list_ascii_of_string_of_list_ascii. Qed.

Lemma of_chars_app a b : Str.of_chars (a ++ b) = Str.of_chars a ++ Str.of_chars b.
Proof.
  unfold Str.of_chars. induction a as [|c a IH]; [done|].
  cbn [app string_of_list_ascii]. rewrite IH. reflexivity.
Qed.

Lemma append_empty_r s : s ++ "" = s.
Proof.
  induction s as [|c s IH]; [done|].
  change (String c (s ++ "") = String c s). by rewrite IH.
Qed.

(** A run of characters that are not whitespace belongs to one word. *)
Lemma split_ws_go_run w s cur :
  forallb (λ c, negb (Str.isspace c)) w = true →
  Str.split_ws_go (w ++ s) cur
  = Str.split_ws_go s (match w with
                       | [] => cur
                       | _ => Some (rev w ++ default [] cur)%list
                       end).
Proof.
  revert cur. induction w as [|c w IH]; intros cur Hw; [done|].
  cbn in Hw. apply andb_prop in Hw as [Hc Hw]. apply negb_true_iff in Hc.
  cbn [app Str.split_ws_go]. rewrite Hc, (IH _ Hw).
  destruct w as [|c' w']; cbn [default]; [done|].
  cbn [rev]. by rewrite <- !app_assoc.
Qed.

(** A run of characters none of which begins the separator stays in the
    current piece. *)
Lemma split_go_run c sep w s cur :
  forallb (λ x, negb (Str.ascii_eqb c x)) w = true →
  Str.split_go (c :: sep) (w ++ s) 0 cur
  = Str.split_go (c :: sep) s 0 (rev w ++ cur)%list.
Proof.
  revert cur. induction w as [|x w IH]; intros cur Hw; [done|].
  cbn in Hw. apply andb_prop in Hw as [Hx Hw]. apply negb_true_iff in Hx.
  cbn [app Str.split_go Str.starts]. rewrite Hx. cbn [andb].
  rewrite (IH _ Hw). cbn [rev]. by rewrite <- app_assoc.
Qed.

Lemma plain_chars m (P : ascii → bool) :
  plain_numeral m = true →
  (∀ c, Str.isdigit c || Str.ascii_eqb c "."%char = true → P c = true) →
  forallb P (Str.chars m) = true.
Proof.
  unfold plain_numeral. rewrite !forallb_forall. intros Hm HP c Hc.
  apply HP, Hm, Hc.
Qed.

(** A digit or a point is none of the characters the parser looks for. *)
Lemma plain_char_other c (x : ascii) :
  Str.isdigit c || Str.ascii_eqb c "."%char = true →
  Str.isdigit x = false → x ≠ "."%char →
  negb (Str.ascii_eqb x c) = true.
Proof.
  intros Hc Hx Hdot. apply negb_true_iff. unfold Str.ascii_eqb in *.
  destruct (Ascii.eqb_spec x c) as [->|]; [|done].
  rewrite Hx in Hc. cbn in Hc. by apply Ascii.eqb_eq in Hc.
Qed.

Lemma plain_not_space c :
  Str.isdigit c || Str.ascii_eqb c "."%char = true → negb (Str.isspace c) = true.
Proof.
  intros [Hd|Hdot]%orb_prop.
  - unfold Str.isdigit, Str.isspace in *. apply negb_true_iff.
    apply andb_prop in Hd as [H1%Nat.leb_le H2%Nat.leb_le].
    apply orb_false_iff. split; apply andb_false_iff.
    + right. apply Nat.leb_gt. lia.
    + right. apply Nat.leb_gt. lia.
  - apply Ascii.eqb_eq in Hdot. by subst.
Qed.

(** What [float] passes over is whitespace for [str.split] too. *)
Lemma float_isspace_isspace c : Float.isspace c = true → Str.isspace c = true.
Proof.
  unfold Float.isspace, Str.isspace. cbn zeta.
  intros [[H1%Nat.leb_le H2%Nat.leb_le]%andb_prop|H%Nat.eqb_eq]%orb_prop;
    apply orb_true_iff.
  - left. apply andb_true_iff. split; by apply Nat.leb_le.
  - right. apply andb_true_iff. split; apply Nat.leb_le; lia.
Qed.

(** [float] reads its argument with the whitespace at its ends gone. *)
Lemma float_strip a b v :
  Float.strip (Str.chars a) = Float.strip (Str.chars b) →
  float b = Ok v → float a = Ok v.
Proof.
  unfold float, Float.of_string. intros ->.
  destruct (Float.parse _); [done|discriminate].
Qed.

Lemma forallb_rev_true {A} (P : A → bool) l :
  forallb P l = true → forallb P (rev l) = true.
Proof.
  rewrite !forallb_forall. intros Hl x Hx. apply Hl. by apply in_rev.
Qed.

Lemma lstrip_nonspace c l : Float.isspace c = false → Float.lstrip (c :: l) = c :: l.
Proof. intros Hc. cbn. by rewrite Hc. Qed.

Lemma strip_plain m (pad : list ascii) :
  plain_numeral m = true → m ≠ "" → forallb Float.isspace pad = true →
  Float.strip (Str.chars m ++ pad) = Str.chars m.
Proof.
  intros Hm Hne Hpad.
  assert (forallb (λ c, negb (Float.isspace c)) (Str.chars m) = true) as Hns.
  { apply (plain_chars m _ Hm). intros c Hc. apply negb_true_iff.
    destruct (Float.isspace c) eqn:Hsp; [|done].
    apply float_isspace_isspace in Hsp. apply plain_not_space in Hc.
    by rewrite Hsp in Hc. }
  destruct (Str.chars m) as [|c cm] eqn:Hcm.
  { exfalso. apply Hne. by rewrite <- (of_chars_chars m), Hcm. }
  unfold Float.strip. cbn in Hns. apply andb_prop in Hns as [Hc Hrest].
  apply negb_true_iff in Hc. cbn [app]. rewrite (lstrip_nonspace _ _ Hc).
  change (c :: cm ++ pad)%list with ((c :: cm) ++ pad)%list.
  rewrite rev_app_distr.
  assert (∀ p l, forallb Float.isspace p = true →
            Float.lstrip (p ++ l) = Float.lstrip l) as Hdrop.
  { induction p as [|x p IH]; intros l Hp; [done|]. cbn in *.
    apply andb_prop in Hp as [-> Hp]. by apply IH. }
  rewrite Hdrop by (by apply forallb_rev_true).
  assert (Float.isspace (List.last (c :: cm) c) = false) as Hlast.
  { assert (∀ l d, forallb (λ c, negb (Float.isspace c)) l = true →
              Float.isspace d = false → Float.isspace (List.last l d) = false) as Hl.
    { induction l as [|x l IH]; intros d Hl Hd; [done|].
      cbn in Hl. apply andb_prop in Hl as [Hx Hl]. apply negb_true_iff in Hx.
      destruct l; [done|]. by apply IH. }
    apply Hl; [|done]. cbn. by rewrite Hc. }
  destruct (rev (c :: cm)) as [|y r] eqn:Hrev.
  { apply (f_equal (@length ascii)) in Hrev. rewrite length_rev in Hrev. done. }
  assert (y = List.last (c :: cm) c) as ->.
  { rewrite <- (rev_involutive (c :: cm)), Hrev. cbn [rev].
    by rewrite List.last_last. }
  rewrite (lstrip_nonspace _ _ Hlast), <- Hrev. apply rev_involutive.
Qed.

Lemma split_ws_go_word (x : list ascii) :
  x ≠ [] → forallb (λ c, negb (Str.isspace c)) x = true →
  Str.split_ws_go x None = [Str.of_chars x].
Proof.
  intros Hne Hx. rewrite <- (app_nil_r x) at 1.
  rewrite (split_ws_go_run _ _ _ Hx). destruct x; [done|].
  cbn [Str.split_ws_go default]. by rewrite app_nil_r, rev_involutive.
Qed.

(** Words joined by single spaces are split back into the same words. *)
Lemma split_ws_words (w : list ascii) (ws : list (list ascii)) :
  Forall (λ w, w ≠ [] ∧ forallb (λ c, negb (Str.isspace c)) w = true) (w :: ws) →
  Str.split_ws_go (foldl (λ acc w', acc ++ " "%char :: w')%list w ws) None
  = map Str.of_chars (w :: ws).
Proof.
  assert (∀ ws (w pre : list ascii),
    Forall (λ w, w ≠ [] ∧ forallb (λ c, negb (Str.isspace c)) w = true) (w :: ws) →
    forallb Str.isspace pre = true →
    Str.split_ws_go (pre ++ foldl (λ acc w', acc ++ " "%char :: w')%list w ws) None
    = map Str.of_chars (w :: ws)) as Hgen.
  { clear. intros ws. induction ws as [|w2 ws IH] using rev_ind; intros w pre Hall Hpre.
    - apply Forall_cons in Hall as [[Hne Hw] _]. cbn [foldl map].
      assert (∀ p l, forallb Str.isspace p = true →
                Str.split_ws_go (p ++ l) None = Str.split_ws_go l None) as Hdrop.
      { induction p as [|x p IHp]; intros l Hp; [done|]. cbn in *.
        apply andb_prop in Hp as [-> Hp]. by apply IHp. }
      rewrite Hdrop by done.
      by apply split_ws_go_word.
    - rewrite foldl_app. cbn [foldl].
      apply Forall_cons in Hall as [Hw Hall].
      apply Forall_app in Hall as [Hws Hw2].
      apply Forall_cons in Hw2 as [[Hne2 Hw2] _].
      rewrite map_cons, map_app. cbn [map].
      assert (∀ l acc x,
        forallb (λ c, negb (Str.isspace c)) x = true → x ≠ [] →
        Str.split_ws_go l None = acc →
        Str.split_ws_go (l ++ " "%char :: x) None = (acc ++ [Str.of_chars x])%list)
        as Hsnoc.
      { clear. intros l acc x Hx Hne <-.
        assert (∀ k cur,
          Str.split_ws_go (k ++ " "%char :: x) cur
          = (Str.split_ws_go k cur ++ [Str.of_chars x])%list) as Hgo.
        { clear l. induction k as [|c k IHl]; intros cur.
          - cbn [app Str.split_ws_go]. change (Str.isspace " ") with true. cbn iota.
            rewrite (split_ws_go_word _ Hne Hx). by destruct cur.
          - cbn [app Str.split_ws_go]. destruct (Str.isspace c).
            + destruct cur; cbn [app]; by rewrite IHl.
            + apply IHl. }
        apply Hgo. }
      rewrite app_assoc. rewrite (Hsnoc _ (map Str.of_chars (w :: ws))); [done..|].
      apply IH; [|done]. by apply Forall_cons. }
  intros Hall. by rewrite <- (Hgen ws w [] Hall eq_refl).
Qed.

Lemma endswith_app s suffix : Str.endswith (s ++ suffix) suffix = true.
Proof.
  unfold Str.endswith. rewrite chars_app, rev_app_distr. apply starts_app. eauto.
Qed.

(** The piece before the first separator: a text that holds no character
    equal to the first one of the separator, then the separator. *)
Lemma split_first m c sep rest :
  forallb (λ x, negb (Str.ascii_eqb c x)) (Str.chars m) = true →
  first (Str.split (m ++ String c sep ++ rest) (String c sep)) = Ok m.
Proof.
  intros Hm. unfold Str.split. rewrite !chars_app.
  change (Str.chars (String c sep)) with (c :: Str.chars sep).
  rewrite (split_go_run _ _ _ _ _ Hm). cbn [app Str.split_go].
  assert (Str.starts (c :: Str.chars sep) (c :: Str.chars sep ++ Str.chars rest) = true)
    as -> by (apply starts_app; eauto).
  cbn [first]. by rewrite app_nil_r, rev_involutive, of_chars_chars.
Qed.

Lemma read_term_words term words d :
  Str.split_ws term = (words ++ ["capacity"])%list →
  read_term term d =
    let end_discharge := Str.join words in
    if Str.endswith end_discharge "%" then
      end_discharge_percent ← first (Str.split end_discharge "%");
      v ← float end_discharge_percent;
      Ok (<["capacity" := (v, "%")]> d)
    else if Str.endswith end_discharge "Ah" then
      end_discharge_Ah ← first (Str.split end_discharge "Ah");
      v ← float end_discharge_Ah;
      Ok (<["capacity" := (v, "Ah")]> d)
    else Raise capacity_format_error.
Proof.
  intros Hsplit. unfold read_term. rewrite Hsplit, last_snoc.
  change (String.eqb "capacity" "capacity") with true. cbn iota zeta.
  by rewrite removelast_last.
Qed.

Lemma split_ws_of_words term (w : string) (ws : list string) :
  Str.chars term
  = foldl (λ acc w', acc ++ " "%char :: w')%list (Str.chars w) (map Str.chars ws) →
  Forall (λ w, w ≠ "" ∧ forallb (λ c, negb (Str.isspace c)) (Str.chars w) = true)
         (w :: ws) →
  Str.split_ws term = w :: ws.
Proof.
  intros Hterm Hall. unfold Str.split_ws. rewrite Hterm, split_ws_words.
  - cbn [map]. rewrite of_chars_chars. f_equal.
    rewrite map_map. rewrite <- (map_id ws) at 2. apply map_ext. intros x.
    apply of_chars_chars.
  - change (Str.chars w :: map Str.chars ws) with (map Str.chars (w :: ws)).
    apply Forall_map. eapply Forall_impl; [exact Hall|]. cbn.
    intros x [Hne Hx]. split; [|done]. intros Hnil. apply Hne.
    by rewrite <- (of_chars_chars x), Hnil.
Qed.

Lemma append_assoc_string a b c : (a ++ b) ++ c = a ++ b ++ c.
Proof.
  rewrite <- (of_chars_chars ((a ++ b) ++ c)), <- (of_chars_chars (a ++ b ++ c)).
  by rewrite !chars_app, app_assoc.
Qed.

Lemma plain_nonempty m v : float m = Ok v → m ≠ "".
Proof. by intros Hv ->. Qed.

(** X7: the forms the parser accepts.  For a magnitude [m] written with
    digits and a decimal point that [float] reads as [v], a percentage, an
    ampere-hour capacity (with or without a space before the unit) and a
    voltage (with or without a space) each give the single entry with value
    [v] and their unit. *)
Theorem read_termination_accepts m v :
  plain_numeral m = true →
  float m = Ok v →
  read_termination (Some (TermStr (m ++ "% capacity")))
    = Ok {[ "capacity" := (v, "%") ]}
  ∧ read_termination (Some (TermStr (m ++ "Ah capacity")))
    = Ok {[ "capacity" := (v, "Ah") ]}
  ∧ read_termination (Some (TermStr (m ++ " Ah capacity")))
    = Ok {[ "capacity" := (v, "Ah") ]}
  ∧ read_termination (Some (TermStr (m ++ " V")))
    = Ok {[ "voltage" := (v, "V") ]}
  ∧ read_termination (Some (TermStr (m ++ "V")))
    = Ok {[ "voltage" := (v, "V") ]}.
Proof.
  intros Hm Hv. pose proof (plain_nonempty _ _ Hv) as Hne.
  pose proof (plain_chars m _ Hm plain_not_space) as Hns.
  assert (∀ x, Str.isdigit x = false → x ≠ "."%char →
            forallb (λ c, negb (Str.ascii_eqb x c)) (Str.chars m) = true) as Hother.
  { intros x Hx Hdot. apply (plain_chars m _ Hm). intros c Hc.
    by apply plain_char_other. }
  assert (∀ u, u ≠ "" → forallb (λ c, negb (Str.isspace c)) (Str.chars u) = true →
            Str.split_ws (m ++ u ++ " capacity") = [m ++ u; "capacity"]) as Hjoined.
  { intros u Hu Hus. apply split_ws_of_words.
    - cbn [map foldl]. rewrite !chars_app. by rewrite <- app_assoc.
    - repeat constructor; try done.
      + intros Hnil. apply (f_equal Str.chars) in Hnil. rewrite chars_app in Hnil.
        apply app_eq_nil in Hnil as [Hnil _]. apply Hne.
        by rewrite <- (of_chars_chars m), Hnil.
      + rewrite chars_app, forallb_app. by rewrite Hns, Hus. }
  assert (∀ u, u ≠ "" → forallb (λ c, negb (Str.isspace c)) (Str.chars u) = true →
            Str.split_ws (m ++ " " ++ u) = [m; u]) as Hspaced.
  { intros u Hu Hus. apply split_ws_of_words.
    - cbn [map foldl]. by rewrite !chars_app.
    - repeat constructor; done. }
  split; [|split; [|split; [|split]]]; unfold read_termination; cbn [read_terms].
  - rewrite (read_term_words _ [m ++ "%"]) by (by apply (Hjoined "%")).
    cbn zeta. cbn [Str.join fold_right]. rewrite append_empty_r, endswith_app.
    rewrite <- (append_empty_r (m ++ "%")), append_assoc_string.
    rewrite (split_first m "%"%char "" "") by (by apply Hother). cbn.
    by rewrite Hv.
  - rewrite (read_term_words _ [m ++ "Ah"]) by (by apply (Hjoined "Ah")).
    cbn zeta. cbn [Str.join fold_right]. rewrite append_empty_r, endswith_app.
    assert (Str.endswith (m ++ "Ah") "%" = false) as ->.
    { unfold Str.endswith. by rewrite chars_app, rev_app_distr. }
    rewrite <- (append_empty_r (m ++ "Ah")), append_assoc_string.
    rewrite (split_first m "A"%char "h" "") by (by apply Hother). cbn.
    by rewrite Hv.
  - assert (Str.split_ws (m ++ " Ah capacity") = ([m; "Ah"] ++ ["capacity"])%list)
      as Hwords.
    { apply split_ws_of_words.
      - cbn [map foldl]. rewrite !chars_app. by rewrite <- app_assoc.
      - repeat constructor; done. }
    rewrite (read_term_words _ _ _ Hwords).
    cbn zeta. cbn [Str.join fold_right]. rewrite append_empty_r, endswith_app.
    assert (Str.endswith (m ++ "Ah") "%" = false) as ->.
    { unfold Str.endswith. by rewrite chars_app, rev_app_distr. }
    rewrite <- (append_empty_r (m ++ "Ah")), append_assoc_string.
    rewrite (split_first m "A"%char "h" "") by (by apply Hother). cbn.
    by rewrite Hv.
  - unfold read_term. change (m ++ " V") with (m ++ " " ++ "V").
    rewrite (Hspaced "V") by done. cbn [last].
    change (String.eqb "V" "capacity") with false. cbn iota.
    rewrite <- append_assoc_string, endswith_app.
    rewrite <- (append_empty_r ((m ++ " ") ++ "V")), append_assoc_string.
    rewrite (split_first (m ++ " ") "V"%char "" "").
    + cbn. rewrite (float_strip (m ++ " ") m v); [done| |done].
      rewrite chars_app, (strip_plain m _ Hm Hne) by done.
      rewrite <- (app_nil_r (Str.chars m)) at 2. by rewrite (strip_plain m _ Hm Hne).
    + rewrite chars_app, forallb_app. rewrite Hother by done. done.
  - unfold read_term.
    assert (Str.split_ws (m ++ "V") = [m ++ "V"]) as ->.
    { apply (split_ws_of_words _ (m ++ "V") []); [done|].
      repeat constructor.
      - intros Hnil. apply (f_equal Str.chars) in Hnil. rewrite chars_app in Hnil.
        by apply app_eq_nil in Hnil as [_ ?].
      - rewrite chars_app, forallb_app. by rewrite Hns. }
    cbn [last].
    assert (String.eqb (m ++ "V") "capacity" = false) as ->.
    { apply String.eqb_neq. intros Heq. apply (f_equal Str.chars) in Heq.
      rewrite chars_app in Heq. apply (f_equal (@rev ascii)) in Heq.
      rewrite rev_app_distr in Heq. discriminate. }
    rewrite endswith_app.
    rewrite <- (append_empty_r (m ++ "V")), append_assoc_string.
    rewrite (split_first m "V"%char "" "") by (by apply Hother). cbn.
    by rewrite Hv.
Qed.

Lemma read_termination_accepts_witness :
  read_termination (Some (TermStr ("3.75" ++ " V")))
  = Ok {[ "voltage" := (Float.Num (15 # 4), "V") ]}.
Proof.
  apply (read_termination_accepts "3.75" (Float.Num (15 # 4))); reflexivity.
Defined.

(** ** More on the tag search *)

Lemma contains_chars_app sep a b :
  Str.contains_chars sep (a ++ sep ++ b) = true.
Proof.
  induction a as [|x a IH]; cbn [app].
  - destruct (sep ++ b)%list eqn:Hs; cbn [Str.contains_chars].
    + destruct sep; [done|discriminate].
    + rewrite <- Hs. assert (Str.starts sep (sep ++ b) = true) as ->; [|done].
      apply starts_app. eauto.
  - cbn [Str.contains_chars]. rewrite IH. apply orb_true_r.
Qed.

Lemma contains_chars_no_bracket s :
  forallb (λ x, negb (Str.ascii_eqb "["%char x)) s = true →
  Str.contains_chars (Str.chars " [") s = false.
Proof.
  induction s as [|x s IH]; [done|]. cbn [forallb]. intros [Hx Hs]%andb_prop.
  cbn [Str.contains_chars]. rewrite (IH Hs), orb_false_r.
  change (Str.chars " [") with [" "%char; "["%char]. cbn [Str.starts].
  destruct s as [|y s]; [apply andb_false_r|].
  cbn [forallb] in Hs. apply andb_prop in Hs as [Hy _]. apply negb_true_iff in Hy.
  by rewrite Hy, andb_false_r.
Qed.

(** Up to the first bracket marker: a text without a bracket, then the
    marker. *)
Lemma split_go_bracket w s cur :
  forallb (λ x, negb (Str.ascii_eqb "["%char x)) w = true →
  Str.split_go [" "%char; "["%char] (w ++ " "%char :: "["%char :: s) 0 cur
  = Str.of_chars (rev cur ++ w) :: Str.split_go [" "%char; "["%char] s 0 [].
Proof.
  revert cur. induction w as [|x w IH]; intros cur Hw.
  - cbn. by rewrite app_nil_r.
  - cbn [forallb] in Hw. apply andb_prop in Hw as [Hx Hw].
    cbn [app Str.split_go].
    assert (Str.starts [" "%char; "["%char] (x :: w ++ " "%char :: "["%char :: s) = false)
      as ->.
    { cbn [Str.starts]. destruct w as [|y w]; cbn [app].
      - by rewrite andb_false_r.
      - cbn [forallb] in Hw. apply andb_prop in Hw as [Hy _]. apply negb_true_iff in Hy.
        by rewrite Hy, andb_false_r. }
    rewrite (IH _ Hw). cbn [rev]. by rewrite <- app_assoc.
Qed.

Lemma split_go_no_bracket s cur :
  forallb (λ x, negb (Str.ascii_eqb "["%char x)) s = true →
  Str.split_go [" "%char; "["%char] s 0 cur = [Str.of_chars (rev cur ++ s)].
Proof.
  revert cur. induction s as [|x s IH]; intros cur Hs.
  - cbn. by rewrite app_nil_r.
  - cbn [forallb] in Hs. apply andb_prop in Hs as [Hx Hs]. cbn [Str.split_go].
    assert (Str.starts [" "%char; "["%char] (x :: s) = false) as ->.
    { cbn [Str.starts]. destruct s as [|y s]; [by rewrite andb_false_r|].
      cbn [forallb] in Hs. apply andb_prop in Hs as [Hy _]. apply negb_true_iff in Hy.
      by rewrite Hy, andb_false_r. }
    rewrite (IH _ Hs). cbn [rev]. by rewrite <- app_assoc.
Qed.

(** Tags joined by commas are split back into the same tags. *)
Lemma split_comma_join tags :
  tags ≠ [] → forallb (no_char ","%char) tags = true →
  Str.split (comma_join tags) "," = tags.
Proof.
  intros Hne Htags. unfold Str.split. change (Str.chars ",") with [","%char].
  induction tags as [|t ts IH]; [done|]. clear Hne.
  cbn [forallb] in Htags. apply andb_prop in Htags as [Ht Hts].
  destruct ts as [|t2 ts].
  - cbn [comma_join]. rewrite <- (app_nil_r (Str.chars t)).
    rewrite (split_go_run _ _ _ _ _ Ht). cbn.
    by rewrite app_nil_r, rev_involutive, of_chars_chars.
  - change (comma_join (t :: t2 :: ts)) with (t ++ "," ++ comma_join (t2 :: ts)).
    rewrite !chars_app. rewrite (split_go_run _ _ _ _ _ Ht).
    change (Str.chars ",") with [","%char]. cbn [app Str.split_go Str.starts].
    change (Str.ascii_eqb "," ",") with true. cbn [andb length Nat.sub].
    rewrite app_nil_r, rev_involutive, of_chars_chars. f_equal.
    by apply IH.
Qed.

Lemma no_char_app c a b : no_char c (a ++ b) = no_char c a && no_char c b.
Proof. unfold no_char. by rewrite chars_app, forallb_app. Qed.

Lemma comma_join_no_bracket tags :
  forallb (no_char "["%char) tags = true → no_char "["%char (comma_join tags) = true.
Proof.
  induction tags as [|t ts IH]; [done|]. cbn [forallb]. intros [Ht Hts]%andb_prop.
  destruct ts as [|t2 ts]; [done|].
  change (comma_join (t :: t2 :: ts)) with (t ++ "," ++ comma_join (t2 :: ts)).
  rewrite !no_char_app, Ht, (IH Hts). done.
Qed.

Lemma drop_last_snoc s c : Str.drop_last (s ++ String c "") = s.
Proof.
  unfold Str.drop_last. rewrite chars_app.
  change (Str.chars (String c "")) with [c].
  by rewrite removelast_last, of_chars_chars.
Qed.

Lemma split_bracket body rest :
  no_char "["%char body = true → no_char "["%char rest = true →
  Str.split (body ++ " [" ++ rest) " [" = [body; rest].
Proof.
  intros Hbody Hrest. unfold Str.split. rewrite !chars_app.
  change (Str.chars " [") with [" "%char; "["%char]. cbn [app].
  rewrite (split_go_bracket _ _ _ Hbody), (split_go_no_bracket _ _ Hrest).
  cbn [rev app]. by rewrite !of_chars_chars.
Qed.

Lemma writable_tags tags :
  forallb (λ t, no_char ","%char t && no_char "["%char t) tags = true →
  forallb (no_char ","%char) tags = true ∧ forallb (no_char "["%char) tags = true.
Proof.
  induction tags as [|t ts IH]; [done|]. cbn [forallb].
  intros [[H1 H2]%andb_prop [H3 H4]%IH]%andb_prop. by rewrite H1, H2, H3, H4.
Qed.

Lemma scan_tagged tag body tags rest :
  tags ≠ [] →
  writable (body, tags) = true →
  scan_cycle tag (Text (tagged body tags) :: rest)
  = if bool_decide (tag ∈ tags) then Ok true else scan_cycle tag rest.
Proof.
  intros Hne [Hbody Htags]%andb_prop. cbn [fst snd] in *.
  apply writable_tags in Htags as [Hcomma Hbracket].
  cbn [scan_cycle]. unfold Str.contains, tagged.
  rewrite !chars_app, contains_chars_app.
  rewrite split_bracket;
    [|done|by rewrite no_char_app, comma_join_no_bracket].
  by rewrite drop_last_snoc, split_comma_join.
Qed.

(** X8: an instruction written with its tags is found by exactly these
    tags.  The scan of a cycle that begins with it stops there when the tag
    is one of them, whatever follows in the cycle, and goes on to the rest of
    the cycle otherwise. *)
Theorem scan_cycle_tagged tag body tags rest :
  tags ≠ [] →
  writable (body, tags) = true →
  scan_cycle tag (Text (tagged body tags) :: rest)
  = if bool_decide (tag ∈ tags) then Ok true else scan_cycle tag rest.
Proof. apply scan_tagged. Qed.

Lemma scan_cycle_tagged_witness :
  scan_cycle "tag2"
    [Text (tagged "Hold at 4.2V until C/50" ["tag1"; "tag2"]); Prebuilt 0]
  = Ok true.
Proof.
  by rewrite (scan_cycle_tagged "tag2" "Hold at 4.2V until C/50" ["tag1"; "tag2"]).
Defined.

Lemma scan_cycle_rendered tag cycle :
  forallb writable cycle = true →
  scan_cycle tag (map (λ instr, Text (render instr)) cycle) = Ok (has_tag tag cycle).
Proof.
  induction cycle as [|[body tags] cycle IH]; [done|].
  cbn [forallb]. intros [Hw Hcycle]%andb_prop. cbn [map has_tag existsb snd].
  destruct tags as [|t ts].
  - change (render (body, [])) with body.
    apply andb_prop in Hw as [Hbody _]. cbn [fst] in Hbody.
    cbn [scan_cycle]. unfold Str.contains.
    rewrite (contains_chars_no_bracket _ Hbody). rewrite (IH Hcycle).
    by rewrite bool_decide_eq_false_2 by apply not_elem_of_nil.
  - change (render (body, t :: ts)) with (tagged body (t :: ts)).
    rewrite scan_tagged by done. case_bool_decide; [done|]. by rewrite (IH Hcycle).
Qed.

Lemma search_cycles_rendered tag cycles : ∀ i acc,
  forallb (forallb writable) cycles = true →
  search_cycles tag i (map (map (λ instr, Text (render instr))) cycles) acc
  = Ok (acc ++ cycles_with_tag tag i cycles)%list.
Proof.
  induction cycles as [|cycle cycles IH]; intros i acc.
  - intros _. cbn. by rewrite app_nil_r.
  - cbn [forallb]. intros [Hc Hrest]%andb_prop.
    cbn [map search_cycles cycles_with_tag]. rewrite (scan_cycle_rendered _ _ Hc).
    cbn. rewrite (IH _ _ Hrest). destruct (has_tag tag cycle); [|done].
    by rewrite <- app_assoc.
Qed.

(** X9: what [search_tag] computes.  On an experiment whose cycles are
    instructions written with their tags, it returns the indices of the
    cycles in which some instruction has the tag, in order. *)
Theorem search_tag_tagged self tag cycles :
  operating_conditions_cycles self
    = map (map (λ instr, Text (render instr))) cycles →
  forallb (forallb writable) cycles = true →
  search_tag self tag = Ok (cycles_with_tag tag 0 cycles).
Proof.
  intros Hcycles Hw. unfold search_tag. rewrite Hcycles.
  by rewrite search_cycles_rendered.
Qed.

(** X10: the shape of a result of [search_tag].  The indices are in
    strictly ascending order, so none comes twice; each is the index of a
    cycle; and the index of a cycle is there exactly when the scan of that
    cycle found the tag. *)
Theorem search_tag_result self tag l :
  search_tag self tag = Ok l →
  StronglySorted lt l
  ∧ NoDup l
  ∧ Forall (λ k, (k < length (operating_conditions_cycles self))%nat) l
  ∧ ∀ k, k ∈ l ↔ ∃ cycle, operating_conditions_cycles self !! k = Some cycle
                         ∧ scan_cycle tag cycle = Ok true.
Proof.
  intros (found & -> & Hsorted & Hmem)%search_cycles_spec. cbn [app].
  assert (∀ k, k ∈ found ↔ ∃ cycle, operating_conditions_cycles self !! k = Some cycle
                                    ∧ scan_cycle tag cycle = Ok true) as Hmem'.
  { intros k. rewrite Hmem, Nat.sub_0_r. split; [by intros [_ ?]|].
    intros ?. split; [lia|done]. }
  split; [done|]. split; [|split; [|done]].
  - clear Hmem Hmem'.
    induction Hsorted as [|k found Hs IH Hall]; constructor; [|done].
    intros Hin. rewrite Forall_forall in Hall. apply Hall in Hin. lia.
  - apply Forall_forall. intros k (cycle & Hk & _)%Hmem'.
    by eapply lookup_lt_Some.
Qed.

(** X11: [search_tag] returns on every experiment of texts in which no
    instruction holds the bracket marker twice. *)
Theorem search_tag_returns self tag :
  forallb (forallb (λ x, match x with
                         | Text cond => bool_decide (length (Str.split cond " [") ≤ 2)%nat
                         | Prebuilt _ => false
                         end))
          (operating_conditions_cycles self) = true →
  is_Ok (search_tag self tag).
Proof.
  intros Hall. apply search_cycles_total.
  apply Forall_forall. intros cycle Hcycle%list_elem_of_In.
  apply Forall_forall. intros x Hx%list_elem_of_In.
  rewrite forallb_forall in Hall. apply Hall in Hcycle.
  rewrite forallb_forall in Hcycle. apply Hcycle in Hx.
  destruct x as [cond|r]; [|done]. exists cond. split; [done|].
  by apply bool_decide_eq_true in Hx.
Qed.

Lemma search_cycles_step_object tag r rest cycles : ∀ i acc,
  (Prebuilt r :: rest) ∈ cycles → ¬ is_Ok (search_cycles tag i cycles acc).
Proof.
  induction cycles as [|cycle cycles IH]; intros i acc Hin; [by apply elem_of_nil in Hin|].
  cbn [search_cycles]. apply elem_of_cons in Hin as [<-|Hin].
  - cbn. by intros [? ?].
  - destruct (scan_cycle tag cycle); cbn; [by apply IH|]. by intros [? ?].
Qed.

Lemma split_comma_pieces s cur piece :
  forallb (λ x, negb (Str.ascii_eqb ","%char x)) cur = true →
  piece ∈ Str.split_go [","%char] s 0 cur →
  no_char ","%char piece = true.
Proof.
  revert cur. induction s as [|c s IH]; intros cur Hcur.
  - cbn. intros ->%list_elem_of_singleton. unfold no_char.
    rewrite chars_of_chars. by apply forallb_rev_true.
  - cbn [Str.split_go Str.starts length Nat.sub].
    destruct (Str.ascii_eqb ","%char c) eqn:Hc; cbn [andb].
    + intros [->|Hin]%elem_of_cons.
      * unfold no_char. rewrite chars_of_chars. by apply forallb_rev_true.
      * by apply (IH []).
    + apply IH. cbn [forallb]. by rewrite Hc.
Qed.

Lemma scan_cycle_comma tag cycle :
  scan_cycle tag cycle = Ok true → no_char ","%char tag = true.
Proof.
  induction cycle as [|x cycle IH]; [discriminate|].
  destruct x as [cond|r]; [|discriminate]. cbn [scan_cycle].
  destruct (Str.contains " [" cond); [|exact IH].
  destruct (Str.split cond " [") as [|a [|tag_str [|? ?]]]; try discriminate.
  case_bool_decide as Hin; [|exact IH]. intros _.
  exact (split_comma_pieces (Str.chars (Str.drop_last tag_str)) [] tag eq_refl Hin).
Qed.

(** X25: tags are separated by commas, so a tag that holds a comma is
    never found: when [search_tag] returns for such a tag, it returns no
    cycle. *)
Theorem search_tag_comma self tag l :
  no_char ","%char tag = false →
  search_tag self tag = Ok l →
  l = [].
Proof.
  intros Hcomma (found & -> & _ & Hmem)%search_cycles_spec. cbn [app].
  destruct found as [|k found]; [done|]. exfalso.
  destruct (proj1 (Hmem k)) as (_ & cycle & _ & Hscan); [left|].
  apply scan_cycle_comma in Hscan. congruence.
Qed.

(** ** More on the constructor *)

Section constructor_more.
Context {runtime : PyRuntime} {collaborators : Collaborators}.

(** X12: when the constructor returns.  It returns exactly when neither
    retired argument is given, the grammar accepts every text of the
    operating conditions, the termination parses and the two conversions
    return: neither the store nor the order in which the set is visited has
    a say. *)
Theorem constructor_returns (h : list Step.t) ops p t term dc cc :
  is_Ok (__init__ h ops p t term dc cc) ↔
    dc = None ∧ cc = None
    ∧ (∀ s, Text s ∈ flatten ops → is_Ok (experiment_string s))
    ∧ is_Ok (read_termination term)
    ∧ is_Ok (_convert_time_to_seconds p)
    ∧ is_Ok (_convert_temperature_to_kelvin t).
Proof.
  split.
  - intros [[e h'] Hrun].
    pose proof (init_defaults _ _ _ _ _ _ _ _ _ Hrun) as (Hps & Htk & Htd).
    pose proof (init_run _ _ _ _ _ _ _ _ _ Hrun)
      as (m & new & _ & _ & _ & _ & Htxt & _).
    unfold __init__ in Hrun. destruct cc; [discriminate|]. destruct dc; [discriminate|].
    do 2 (split; [done|]). split; [|split; [by eexists|split; by eexists]].
    intros s Hin. destruct (Htxt s Hin) as (_ & st & -> & _). by eexists.
  - intros (-> & -> & Hgrammar & Htd & Hps & Htk). by apply init_succeeds.
Qed.

(** X13: a text the grammar refuses makes the constructor raise an error
    of the grammar on a text of the operating conditions, as the grammar
    raised it, before the termination and the defaults are looked at. *)
Theorem grammar_error_propagates (h : list Step.t) ops p t term s e0 :
  Text s ∈ flatten ops →
  experiment_string s = Raise e0 →
  ∃ s' e, Text s' ∈ flatten ops
          ∧ experiment_string s' = Raise e
          ∧ __init__ h ops p t term None None = Raise e.
Proof.
  intros Hin Hs.
  destruct (process_steps h (visited h ops) ∅ h) as [[m h1]|e] eqn:Hm.
  - apply (process_steps_spec _ _ _ _ _ _ (NoDup_visited h ops)) in Hm
      as (_ & _ & _ & Htxt).
    apply (proj2 (visited_text h ops s)) in Hin.
    destruct (Htxt s Hin) as (r & st & _ & _ & Hok & _).
    congruence.
  - destruct (process_steps_raise _ _ _ _ _ Hm) as (s' & Hin' & Hs').
    apply (proj1 (visited_text h ops s')) in Hin'. exists s', e.
    do 2 (split; [assumption|]).
    unfold visited, flatten, cycles_of in Hm. unfold __init__. by rewrite Hm.
Qed.

(** X14: once every text is accepted, the next errors come in the order of
    the source: that of the termination, then that of the period, then that
    of the temperature, each as it was raised. *)
Theorem later_errors_propagate (h : list Step.t) ops p t term e :
  (∀ s, Text s ∈ flatten ops → is_Ok (experiment_string s)) →
  (read_termination term = Raise e →
     __init__ h ops p t term None None = Raise e)
  ∧ (is_Ok (read_termination term) → _convert_time_to_seconds p = Raise e →
     __init__ h ops p t term None None = Raise e)
  ∧ (is_Ok (read_termination term) → is_Ok (_convert_time_to_seconds p) →
     _convert_temperature_to_kelvin t = Raise e →
     __init__ h ops p t term None None = Raise e).
Proof.
  intros Hgrammar.
  destruct (process_steps_total h (visited h ops) ∅ h) as [[m h1] Hm].
  { intros s Hin. apply Hgrammar. by apply (visited_text h). }
  destruct (lookup_steps_total h m (flatten ops)) as [steps Hsteps].
  { pose proof (process_steps_spec _ _ _ _ _ _ (NoDup_visited h ops) Hm)
      as (_ & _ & Hpre & Htxt).
    intros x (y & Hy & <-)%(visited_covers h). destruct y as [s|r].
    - destruct (Htxt s Hy) as (r & st & Hr & _). cbn [key_of].
      rewrite Hr. by eexists.
    - rewrite (Hpre r Hy). by eexists. }
  unfold visited, flatten, cycles_of in Hm, Hsteps. unfold __init__.
  rewrite Hm. cbn. rewrite Hsteps. cbn.
  split; [by intros ->|]. split.
  - intros [td ->] ->. done.
  - intros [td ->] [ps ->] ->. done.
Qed.

End constructor_more.

Section constructor_effects.
Context {runtime : PyRuntime} {collaborators : Collaborators}.

Lemma constructor_frame_aux (h : list Step.t) ops p t term dc cc e h' r st :
  __init__ h ops p t term dc cc = Ok (e, h') →
  h !! r = Some st →
  ∃ st',
    h' !! r = Some st'
    ∧ Step.operation st' = Step.operation st
    ∧ (∀ v, Step.period st = Some v → Step.period st' = Some v)
    ∧ (∀ v, Step.temperature st = Some v → Step.temperature st' = Some v)
    ∧ (Prebuilt r ∉ flatten ops → st' = st).
Proof.
  intros Hrun Hst. pose proof (lookup_lt_Some _ _ _ Hst) as Hlt.
  destruct (init_store _ _ _ _ _ _ _ _ _ Hrun) as [_ Hstore].
  rewrite (Hstore r Hlt), Hst. case_decide as Hin.
  - exists (Step.with_defaults (period e) (temperature e) st).
    split; [done|]. split; [done|]. split; [|split].
    + intros v Hv. cbn. by rewrite Hv.
    + intros v Hv. cbn. by rewrite Hv.
    + intros Hnot. exfalso.
      destruct (unique_steps_origin _ _ _ _ _ _ _ _ _ _ Hrun Hin)
        as [[? _]|(s & st0 & _ & Hrange & _)]; [done|lia].
  - exists st. by repeat split.
Qed.

(** X15: what the constructor does to the objects that exist.  It keeps
    each one's operation, keeps a period and a temperature that are set, and
    leaves an object that is not one of the operating conditions as it was:
    only the step objects handed to it are written to. *)
Theorem constructor_frame (h : list Step.t) ops p t term dc cc e h' r st :
  __init__ h ops p t term dc cc = Ok (e, h') →
  h !! r = Some st →
  ∃ st',
    h' !! r = Some st'
    ∧ Step.operation st' = Step.operation st
    ∧ (∀ v, Step.period st = Some v → Step.period st' = Some v)
    ∧ (∀ v, Step.temperature st = Some v → Step.temperature st' = Some v)
    ∧ (Prebuilt r ∉ flatten ops → st' = st).
Proof. apply constructor_frame_aux. Qed.

(** X16: each distinct text is parsed once.  The constructor adds to the
    store one object for each distinct text of the operating conditions and
    no other, however often a text is repeated. *)
Theorem constructor_allocates (h : list Step.t) ops p t term dc cc e h' :
  __init__ h ops p t term dc cc = Ok (e, h') →
  length h' = (length h + size (texts ops))%nat.
Proof.
  intros (m & new & _ & _ & _ & _ & _ & _ & Hlen & _ & ->)%init_run.
  by rewrite inject_all_length, length_app, Hlen.
Qed.

(** X17: different texts never share a step.  At two positions that hold
    different texts, [operating_conditions_steps] holds two different
    objects, even when the grammar builds equal steps from the two texts. *)
Theorem distinct_texts_distinct_steps (h : list Step.t) ops p t term dc cc e h'
    i j s1 s2 r1 r2 :
  __init__ h ops p t term dc cc = Ok (e, h') →
  flatten ops !! i = Some (Text s1) →
  flatten ops !! j = Some (Text s2) →
  s1 ≠ s2 →
  operating_conditions_steps e !! i = Some r1 →
  operating_conditions_steps e !! j = Some r2 →
  r1 ≠ r2.
Proof.
  intros (m & new & Hsteps & _ & _ & _ & _ & Hinj & _)%init_run
    Hi Hj Hne Hri Hrj ->. apply Hne.
  rewrite Hsteps, list_lookup_fmap, Hi in Hri. injection Hri as Hri.
  rewrite Hsteps, list_lookup_fmap, Hj in Hrj. injection Hrj as Hrj.
  apply Hinj; [by eapply list_elem_of_lookup_2..|congruence].
Qed.

(** X18: the cycle lengths add up to the number of steps. *)
Theorem cycle_lengths_sum (h : list Step.t) ops p t term dc cc e h' :
  __init__ h ops p t term dc cc = Ok (e, h') →
  sum_list (cycle_lengths e) = length (operating_conditions_steps e)
  ∧ length (cycle_lengths e) = length ops.
Proof.
  intros Hrun.
  destruct (init_fields _ _ _ _ _ _ _ _ _ Hrun) as (_ & _ & ->).
  destruct (init_run _ _ _ _ _ _ _ _ _ Hrun) as (m & new & -> & _).
  rewrite length_fmap. unfold flatten, cycles_of.
  rewrite !length_map. split; [|done]. clear.
  induction ops as [|c ops IH]; [done|]. cbn. rewrite length_app. by rewrite IH.
Qed.

(** X19: the defaults a step object has been given stay.  When a step
    object is in [unique_steps] of one experiment and a second experiment is
    built later, whatever its operating conditions, the object keeps a
    period it named itself, and has the first experiment's period when it
    named none and that period is a number; the same holds of the
    temperature.  A field that the object left unset and for which the
    first experiment had [None] too is still free: it is [None] after the
    second construction, or the second experiment's value when the object
    is in its [unique_steps]. *)
Theorem first_defaults_stay (h : list Step.t) ops1 p1 t1 term1 e1 h1
    ops2 p2 t2 term2 e2 h2 r st :
  __init__ h ops1 p1 t1 term1 None None = Ok (e1, h1) →
  __init__ h1 ops2 p2 t2 term2 None None = Ok (e2, h2) →
  r ∈ unique_steps e1 →
  h !! r = Some st →
  ∃ st2,
    h2 !! r = Some st2
    ∧ (∀ v, Step.period st = Some v → Step.period st2 = Some v)
    ∧ (∀ v, Step.temperature st = Some v → Step.temperature st2 = Some v)
    ∧ (∀ v, Step.period st = None → period e1 = Some v → Step.period st2 = Some v)
    ∧ (∀ v, Step.temperature st = None → temperature e1 = Some v →
         Step.temperature st2 = Some v)
    ∧ (Step.period st = None → period e1 = None →
       Step.period st2 = if decide (r ∈ unique_steps e2) then period e2 else None)
    ∧ (Step.temperature st = None → temperature e1 = None →
       Step.temperature st2
       = if decide (r ∈ unique_steps e2) then temperature e2 else None).
Proof.
  intros Hrun1 Hrun2 Hr1 Hst.
  pose proof (lookup_lt_Some _ _ _ Hst) as Hlt.
  destruct (init_store _ _ _ _ _ _ _ _ _ Hrun1) as [Hlen1 Hstore1].
  destruct (init_store _ _ _ _ _ _ _ _ _ Hrun2) as [_ Hstore2].
  pose proof (Hstore1 r Hlt) as Hh1. rewrite decide_True, Hst in Hh1 by done.
  cbn in Hh1.
  pose proof (Hstore2 r ltac:(lia)) as Hh2. rewrite Hh1 in Hh2.
  exists (if decide (r ∈ unique_steps e2)
          then Step.with_defaults (period e2) (temperature e2)
                 (Step.with_defaults (period e1) (temperature e1) st)
          else Step.with_defaults (period e1) (temperature e1) st).
  split; [rewrite Hh2; by case_decide|].
  destruct st as [o [sp|] [stemp|]];
    destruct (period e1) as [pe1|], (temperature e1) as [te1|];
    case_decide; cbn; repeat split; intros; congruence.
Qed.

End constructor_effects.

Section copy_more.
Context {runtime : PyRuntime} {collaborators : Collaborators}.

(** X20: a copy is the same experiment.  It has the arguments, the cycles,
    the cycle lengths, the termination, the period and the temperature of
    the original, as many steps, and at each position a step with the same
    content as the original's. *)
Theorem copy_reproduces (h : list Step.t) ops p t term dc cc e h'
    (later : list Step.t) e2 h'' :
  __init__ h ops p t term dc cc = Ok (e, h') →
  prebuilt_valid h ops = true →
  copy e (h' ++ later)%list = Ok (e2, h'') →
  args e2 = args e
  ∧ operating_conditions_cycles e2 = operating_conditions_cycles e
  ∧ cycle_lengths e2 = cycle_lengths e
  ∧ termination_string e2 = termination_string e
  ∧ termination e2 = termination e
  ∧ period e2 = period e
  ∧ temperature e2 = temperature e
  ∧ length (operating_conditions_steps e2) = length (operating_conditions_steps e)
  ∧ ∀ i r r2, operating_conditions_steps e !! i = Some r →
              operating_conditions_steps e2 !! i = Some r2 →
              h'' !! r2 = h' !! r.
Proof.
  intros Hrun Hvalid Hcopy.
  destruct (init_fields _ _ _ _ _ _ _ _ _ Hrun) as (Hargs & _).
  unfold copy in Hcopy. rewrite Hargs in Hcopy.
  destruct (copy_run _ _ _ _ _ _ _ _ _ _ _ _ Hrun Hvalid Hcopy) as (HA & HB & _).
  rewrite prebuilt_valid_spec in Hvalid.
  destruct (init_store _ _ _ _ _ _ _ _ _ Hrun) as [Hlen Hstore].
  destruct (init_store _ _ _ _ _ _ _ _ _ Hcopy) as [Hlen2 Hstore2].
  pose proof (init_run _ _ _ _ _ _ _ _ _ Hrun) as (m & new & Hsteps & _).
  pose proof (init_run _ _ _ _ _ _ _ _ _ Hcopy) as (m2 & new2 & Hsteps2 & _).
  pose proof Hrun as Hinv. apply init_inv in Hinv
    as (m0 & h1 & steps & td & ps & tk & _ & _ & Htd & Hps & Htk & He & _).
  pose proof Hcopy as Hinv2. apply init_inv in Hinv2
    as (m02 & h12 & steps2 & td2 & ps2 & tk2 & _ & _ & Htd2 & Hps2 & Htk2 & He2 & _).
  assert (td2 = td) as -> by congruence.
  assert (ps2 = ps) as -> by congruence.
  assert (tk2 = tk) as -> by congruence.
  assert (period e = ps ∧ temperature e = tk ∧ period e2 = ps ∧ temperature e2 = tk)
    as (Hpe & Hte & Hpe2 & Hte2) by (by rewrite He, He2).
  split; [by rewrite He, He2|]. split; [by rewrite He, He2|].
  split; [by rewrite He, He2|]. split; [by rewrite He, He2|].
  split; [by rewrite He, He2|]. split; [congruence|]. split; [congruence|].
  split; [by rewrite Hsteps, Hsteps2, !length_fmap|].
  clear He He2. intros i r r2 Hr Hr2.
  assert (is_Some (flatten ops !! i)) as [x Hx].
  { apply lookup_lt_is_Some. apply lookup_lt_Some in Hr.
    by rewrite Hsteps, length_fmap in Hr. }
  pose proof (HA i x r r2 Hx Hr Hr2) as Hcase. destruct x as [s|r0].
  - destruct Hcase as (_ & _ & Hiff & st & _ & -> & ->).
    rewrite Hpe, Hte, Hpe2, Hte2. f_equal.
    destruct (decide (r ∈ unique_steps e)) as [Hin|Hnin].
    + rewrite decide_True; [done|]. by apply Hiff.
    + rewrite decide_False; [done|]. by rewrite <- Hiff.
  - destruct Hcase as (-> & Hin & Hlt).
    rewrite length_app in Hlen2.
    rewrite (Hstore2 r) by (rewrite length_app; lia).
    rewrite lookup_app_l by lia. case_decide as Hin2; [|done].
    destruct (HB r Hin2) as [Hin1 _]; [rewrite length_app; lia|].
    rewrite (Hstore r Hlt), decide_True by done.
    rewrite Hpe, Hte, Hpe2, Hte2. destruct (h !! r); [|done]. cbn.
    by rewrite with_defaults_idemp.
Qed.

(** X21: [search_tag] never returns on an experiment built from operating
    conditions in which a step object stands alone or first in a tuple,
    whatever the tag. *)
Theorem search_tag_never_returns (h : list Step.t) ops p t term dc cc e h' r rest tag :
  __init__ h ops p t term dc cc = Ok (e, h') →
  Single (Prebuilt r) ∈ ops ∨ Tuple (Prebuilt r :: rest) ∈ ops →
  ¬ is_Ok (search_tag e tag).
Proof.
  intros Hrun Hin.
  destruct (init_fields _ _ _ _ _ _ _ _ _ Hrun) as (_ & Hcycles & _).
  unfold search_tag. rewrite Hcycles. unfold cycles_of.
  destruct Hin as [Hin|Hin].
  - apply (search_cycles_step_object tag r []).
    apply list_elem_of_In, in_map_iff. exists (Single (Prebuilt r)).
    split; [done|]. by apply list_elem_of_In.
  - apply (search_cycles_step_object tag r rest).
    apply list_elem_of_In, in_map_iff. exists (Tuple (Prebuilt r :: rest)).
    split; [done|]. by apply list_elem_of_In.
Qed.

(** X26: instructions that are equal resolve to one step.  Two positions
    that hold equal instructions, the same text or two step objects that
    are equal, hold the same step in [operating_conditions_steps]; for a
    step object it is the first of the step objects given that are equal to
    it, which may be another object than the one at the position. *)
Theorem equal_instructions_one_step (h : list Step.t) ops p t term dc cc e h' i j x y :
  __init__ h ops p t term dc cc = Ok (e, h') →
  flatten ops !! i = Some x →
  flatten ops !! j = Some y →
  key_of h x = key_of h y →
  ∃ r, operating_conditions_steps e !! i = Some r
       ∧ operating_conditions_steps e !! j = Some r
       ∧ ∀ r0, x = Prebuilt r0 →
           ∃ k, (k ≤ i)%nat ∧ flatten ops !! k = Some (Prebuilt r)
                ∧ key_of h (Prebuilt r) = key_of h x
                ∧ ∀ k' z, (k' < k)%nat → flatten ops !! k' = Some z →
                          key_of h z ≠ key_of h x.
Proof.
  intros Hrun Hi Hj Hk.
  destruct (init_run _ _ _ _ _ _ _ _ _ Hrun)
    as (m & new & Hsteps & _ & _ & Hpre & _).
  exists (resolved m h x). rewrite Hsteps, !list_lookup_fmap, Hi, Hj. cbn.
  split; [done|]. split; [by rewrite (resolved_key m h x y Hk)|].
  intros r0 ->.
  assert (∀ seen l (z : instruction), z ∈ py_set_go (key_of h) seen l →
            ∃ k, l !! k = Some z
                 ∧ ∀ k' z', (k' < k)%nat → l !! k' = Some z' →
                            key_of h z' ≠ key_of h z) as Hfirst.
  { clear. intros seen l z. revert seen.
    induction l as [|a l IH]; intros seen; cbn; [by intros ?%elem_of_nil|].
    case_decide as Ha.
    - intros Hz. pose proof (elem_of_py_set_go _ _ _ _ Hz) as [_ Hseen].
      destruct (IH _ Hz) as (k & Hk & Hbefore). exists (S k). split; [done|].
      intros [|k'] z' Hlt; cbn.
      + intros [= <-] Heq. apply Hseen. by rewrite <- Heq.
      + apply Hbefore. lia.
    - intros [->|Hz]%elem_of_cons.
      + exists 0%nat. split; [done|]. intros k' z' Hlt. lia.
      + pose proof (elem_of_py_set_go _ _ _ _ Hz) as [_ Hseen].
        destruct (IH _ Hz) as (k & Hk & Hbefore). exists (S k). split; [done|].
        intros [|k'] z' Hlt; cbn.
        * intros [= <-] Heq. apply Hseen. rewrite <- Heq. left.
        * apply Hbefore. lia. }
  assert (Prebuilt r0 ∈ flatten ops) as Hin by (by eapply list_elem_of_lookup_2).
  destruct (visited_covers h ops _ Hin) as (z & Hz & Hkz).
  destruct z as [s|r1].
  { symmetry in Hkz. by apply key_of_text_inv in Hkz. }
  rewrite <- (resolved_key m h _ _ Hkz), (Hpre r1 Hz).
  apply elem_of_visited in Hz. destruct (Hfirst _ _ _ Hz) as (k & Hkk & Hbefore).
  exists k. split; [|split; [done|split; [done|]]].
  - destruct (decide (k ≤ i)%nat) as [|Hgt]; [done|]. exfalso.
    apply (Hbefore i (Prebuilt r0)); [lia|done|done].
  - intros k' z Hlt Hz'. rewrite <- Hkz. by eapply Hbefore.
Qed.

(** X27: of steps that are equal, [unique_steps] keeps one, and the
    defaults are written to the steps of [unique_steps] only.  So when two
    different objects of [operating_conditions_steps] are equal, a step
    object and the step built from a text for one, at most one of the two is
    in [unique_steps], and the other is as it was before the pass: a step
    object as the constructor found it, a step built from a text as the
    grammar built it. *)
Theorem equal_steps_one_kept (h : list Step.t) ops p t term dc cc e h' r r' :
  __init__ h ops p t term dc cc = Ok (e, h') →
  r ∈ operating_conditions_steps e →
  r' ∈ operating_conditions_steps e →
  r ≠ r' →
  step_key h' r = step_key h' r' →
  (r ∉ unique_steps e ∨ r' ∉ unique_steps e)
  ∧ (r ∉ unique_steps e →
     (∀ st, h !! r = Some st → h' !! r = Some st)
     ∧ (∀ i s st, flatten ops !! i = Some (Text s) →
          operating_conditions_steps e !! i = Some r →
          experiment_string s = Ok st → h' !! r = Some st)).
Proof.
  intros Hrun Hr Hr' Hne Hk.
  destruct (init_unique _ _ _ _ _ _ _ _ _ Hrun) as (_ & _ & HU3 & _).
  split.
  { destruct (decide (r ∈ unique_steps e)) as [Hin|]; [|by left].
    destruct (decide (r' ∈ unique_steps e)) as [Hin'|]; [|by right].
    by destruct (Hne (HU3 r r' Hin Hin' Hk)). }
  intros Hout. split.
  - intros st Hst. pose proof (lookup_lt_Some _ _ _ Hst) as Hlt.
    destruct (init_store _ _ _ _ _ _ _ _ _ Hrun) as [_ Hstore].
    by rewrite (Hstore r Hlt), decide_False.
  - intros i s st Hi Hri Hst.
    destruct (init_run _ _ _ _ _ _ _ _ _ Hrun)
      as (m & new & Hsteps & _ & _ & _ & Htxt & _ & _ & _ & Hh).
    rewrite Hsteps, list_lookup_fmap, Hi in Hri. injection Hri as <-.
    destruct (Htxt s) as (_ & st' & Hst' & Hnew); [by eapply list_elem_of_lookup_2|].
    assert (st' = st) as -> by congruence.
    rewrite Hh at 1. by rewrite inject_all_lookup, decide_False, Hnew.
Qed.

End copy_more.

(** ** The transference number *)

(** X22: the order of the three stages.  The concentration is divided
    before the coefficients are unpacked, so an error of that division is
    the error of the function whatever the coefficients are.  When the
    division returns, fewer or more than nine coefficients raise the
    [ValueError] of the unpacking before any arithmetic of the polynomial,
    and nine coefficients give what the polynomial gives, its error
    included.  So the function returns only when it is given nine
    coefficients and the division returns. *)
Theorem transference_nine_coefficients {R} `{Transference.Arith R}
    (c_e T : R) (coeffs : list R) :
  (∀ e, Transference.truediv c_e 1000 = Raise e →
     Transference.electrolyte_transference_number_base_Landesfeind2019 c_e T coeffs
     = Raise e)
  ∧ (∀ c, Transference.truediv c_e 1000 = Ok c →
       ((length coeffs < 9)%nat →
        Transference.electrolyte_transference_number_base_Landesfeind2019 c_e T coeffs
        = Raise (Transference.too_few (length coeffs)))
       ∧ ((9 < length coeffs)%nat →
          Transference.electrolyte_transference_number_base_Landesfeind2019 c_e T coeffs
          = Raise Transference.too_many)
       ∧ (∀ p1 p2 p3 p4 p5 p6 p7 p8 p9,
            coeffs = [p1; p2; p3; p4; p5; p6; p7; p8; p9] →
            Transference.electrolyte_transference_number_base_Landesfeind2019 c_e T coeffs
            = Transference.tplus c T p1 p2 p3 p4 p5 p6 p7 p8 p9))
  ∧ (is_Ok (Transference.electrolyte_transference_number_base_Landesfeind2019
              c_e T coeffs) →
     length coeffs = 9%nat ∧ is_Ok (Transference.truediv c_e 1000)).
Proof.
  unfold Transference.electrolyte_transference_number_base_Landesfeind2019.
  split; [by intros e ->|]. split.
  - intros c ->. cbn [mbind result_bind].
    split; [|split].
    + intros Hlt.
      do 9 (destruct coeffs as [|? coeffs]; [reflexivity|]). cbn in Hlt. lia.
    + intros Hgt.
      do 10 (destruct coeffs as [|? coeffs]; [cbn in Hgt; lia|]). reflexivity.
    + by intros p1 p2 p3 p4 p5 p6 p7 p8 p9 ->.
  - destruct (Transference.truediv c_e 1000) as [c|e]; cbn [mbind result_bind];
      [|intros [? ?]; discriminate].
    intros Hok. split; [|by eexists].
    do 9 (destruct coeffs as [|? coeffs]; [destruct Hok; discriminate|]).
    destruct coeffs; [done|]. destruct Hok; discriminate.
Qed.

(** X23: in exact arithmetic the transference number is linear in the
    coefficients: for coefficients [k * a_i + b_i] it is [k] times the value
    for the [a_i] plus the value for the [b_i]. *)
Theorem transference_linear (c_e T k : Q) (a b : list Q) :
  length a = 9%nat → length b = 9%nat →
  ∃ va vb v,
    Transference.electrolyte_transference_number_base_Landesfeind2019 c_e T a = Ok va
    ∧ Transference.electrolyte_transference_number_base_Landesfeind2019 c_e T b = Ok vb
    ∧ Transference.electrolyte_transference_number_base_Landesfeind2019 c_e T
        (zip_with (λ x y, k * x + y)%Q a b) = Ok v
    ∧ (v == k * va + vb)%Q.
Proof.
  intros Ha Hb.
  do 10 (destruct a as [|? a]; try discriminate).
  do 10 (destruct b as [|? b]; try discriminate).
  eexists _, _, _. repeat split.
  change (Z.of_nat 2) with 2%Z. change (Z.of_nat 3) with 3%Z.
  generalize (c_e / inject_Z (Z.of_nat 1000))%Q. intros c. ring.
Qed.

(** X24: in exact arithmetic, at zero concentration only the terms in the
    temperature alone are left: the value is [p1 + p3 T + p6 T^2]. *)
Theorem transference_zero_concentration (T p1 p2 p3 p4 p5 p6 p7 p8 p9 : Q) :
  ∃ v,
    Transference.electrolyte_transference_number_base_Landesfeind2019 0%Q T
      [p1; p2; p3; p4; p5; p6; p7; p8; p9] = Ok v
    ∧ (v == p1 + p3 * T + p6 * T * T)%Q.
Proof.
  eexists. split; [reflexivity|].
  change (Z.of_nat 2) with 2%Z. change (Z.of_nat 3) with 3%Z.
  assert (0 / inject_Z (Z.of_nat 1000) == 0)%Q as -> by reflexivity. ring.
Qed.

(** ** The further properties on concrete inputs *)

Lemma read_termination_keys_witness :
  ∃ d, read_termination
         (Some (TermList ["80% capacity"; "4Ah capacity"; "2.5 V"])) = Ok d
       ∧ (size d ≤ 2)%nat.
Proof.
  destruct (read_termination
              (Some (TermList ["80% capacity"; "4Ah capacity"; "2.5 V"])))
    as [d|err] eqn:Hrun; [|vm_compute in Hrun; discriminate].
  exists d. split; [reflexivity|]. exact (proj2 (read_termination_keys _ _ Hrun)).
Defined.

Lemma read_termination_swap_witness :
  ∃ d, read_termination (Some (TermList (["80% capacity"] ++ ["2.5 V"]))) = Ok d
       ∧ read_termination (Some (TermList (["2.5 V"] ++ ["80% capacity"]))) = Ok d.
Proof.
  eexists. apply (read_termination_swap ["80% capacity"] ["2.5 V"]
                    {[ "capacity" := (Float.Num (80 # 1), "%") ]}
                    {[ "voltage" := (Float.Num (5 # 2), "V") ]}).
  - vm_compute. reflexivity.
  - vm_compute. reflexivity.
  - rewrite !dom_singleton_L. by apply disjoint_singleton_l, not_elem_of_singleton.
Defined.

Lemma read_termination_first_error_witness :
  read_termination (Some (TermList (["80% capacity"] ++ "abc" :: ["2.5 V"])))
  = Raise termination_kind_error.
Proof.
  apply (read_termination_first_error ["80% capacity"] "abc" ["2.5 V"]
           {[ "capacity" := (Float.Num (80 # 1), "%") ]}).
  - vm_compute. reflexivity.
  - reflexivity.
Defined.

Lemma read_termination_blank_witness :
  read_termination (Some (TermStr "  "))
  = Raise (IndexError "list index out of range").
Proof. apply (read_termination_blank "  "). reflexivity. Defined.

Lemma read_termination_errors_witness :
  read_termination (Some (TermStr "abc% capacity"))
    = Raise (ValueError "could not convert string to float: 'abc'")
  ∧ (ValueError "could not convert string to float: 'abc'"
       = IndexError "list index out of range"
     ∨ ValueError "could not convert string to float: 'abc'" = capacity_format_error
     ∨ ValueError "could not convert string to float: 'abc'" = termination_kind_error
     ∨ ∃ text, ValueError "could not convert string to float: 'abc'"
               = ValueError ("could not convert string to float: " ++ Str.repr text)).
Proof.
  split; [reflexivity|].
  apply (read_termination_errors (Some (TermStr "abc% capacity"))). reflexivity.
Defined.

Lemma search_tag_tagged_witness :
  ∃ e h',
    @__init__ elements_runtime spec_collaborators []
      (map (λ cycle, Tuple (map (λ instr, Text (render instr)) cycle))
           three_tagged_cycles)
      (Some "1 minute") None None None None = Ok (e, h')
    ∧ search_tag e "tag1" = Ok [0; 2]%nat.
Proof.
  destruct (@__init__ elements_runtime spec_collaborators [] _ _ _ _ _ _)
    as [[e h']|err] eqn:Hrun; [|vm_compute in Hrun; discriminate].
  destruct (init_fields _ _ _ _ _ _ _ _ _ Hrun) as (_ & Hcycles & _).
  exists e, h'. split; [reflexivity|].
  apply (search_tag_tagged e "tag1" three_tagged_cycles);
    [rewrite Hcycles|]; reflexivity.
Defined.

Lemma search_tag_result_witness :
  ∃ e h' l,
    @__init__ elements_runtime spec_collaborators []
      (map (λ cycle, Tuple (map (λ instr, Text (render instr)) cycle))
           three_tagged_cycles)
      (Some "1 minute") None None None None = Ok (e, h')
    ∧ search_tag e "tag2" = Ok l
    ∧ NoDup l.
Proof.
  destruct (@__init__ elements_runtime spec_collaborators [] _ _ _ _ _ _)
    as [[e h']|err] eqn:Hrun; [|vm_compute in Hrun; discriminate].
  destruct (init_fields _ _ _ _ _ _ _ _ _ Hrun) as (_ & Hcycles & _).
  assert (search_tag e "tag2" = Ok [1; 2]%nat) as Hsearch
    by (unfold search_tag; rewrite Hcycles; reflexivity).
  exists e, h', [1; 2]%nat. split; [reflexivity|]. split; [exact Hsearch|].
  exact (proj1 (proj2 (search_tag_result e "tag2" _ Hsearch))).
Defined.

Lemma search_tag_returns_witness :
  ∃ e h',
    @__init__ elements_runtime spec_collaborators []
      [Single (Text "Rest for 1 hour [a]"); Single (Text "Rest for 1 hour")]
      (Some "1 minute") None None None None = Ok (e, h')
    ∧ is_Ok (search_tag e "a").
Proof.
  destruct (@__init__ elements_runtime spec_collaborators [] _ _ _ _ _ _)
    as [[e h']|err] eqn:Hrun; [|vm_compute in Hrun; discriminate].
  destruct (init_fields _ _ _ _ _ _ _ _ _ Hrun) as (_ & Hcycles & _).
  exists e, h'. split; [reflexivity|].
  apply (search_tag_returns e "a"). rewrite Hcycles. reflexivity.
Defined.

Lemma grammar_error_propagates_witness :
  ∃ e,
    @__init__ elements_runtime spec_collaborators []
      [Single (Text "Rest for 1 hour"); Single (Text "")]
      (Some "1 minute") None None None None = Raise e.
Proof.
  destruct (grammar_error_propagates (runtime := elements_runtime)
              (collaborators := spec_collaborators) []
              [Single (Text "Rest for 1 hour"); Single (Text "")]
              (Some "1 minute") None None "" (ValueError "empty instruction"))
    as (s' & e & _ & _ & Hrun).
  - apply list_elem_of_In. cbn. tauto.
  - reflexivity.
  - by exists e.
Defined.

Lemma later_errors_propagate_witness :
  @__init__ elements_runtime spec_collaborators []
    [Single (Text "Rest for 1 hour")] (Some "1 minute") None
    (Some (TermStr "abc")) None None
  = Raise termination_kind_error.
Proof.
  destruct (later_errors_propagate (runtime := elements_runtime)
              (collaborators := spec_collaborators) []
              [Single (Text "Rest for 1 hour")] (Some "1 minute") None
              (Some (TermStr "abc")) termination_kind_error) as (Hterm & _ & _).
  - intros s Hin%list_elem_of_In. cbn in Hin. destruct Hin as [[= <-]|[]].
    by eexists.
  - apply Hterm. reflexivity.
Defined.

Lemma constructor_frame_witness :
  ∃ e h',
    @__init__ elements_runtime spec_collaborators [current_1A; rest_30s]
      [Single (Prebuilt 0)] (Some "1 minute") None None None None = Ok (e, h')
    ∧ h' !! 1%nat = Some rest_30s.
Proof.
  destruct (@__init__ elements_runtime spec_collaborators _ _ _ _ _ _ _)
    as [[e h']|err] eqn:Hrun; [|vm_compute in Hrun; discriminate].
  exists e, h'. split; [reflexivity|].
  destruct (constructor_frame _ _ _ _ _ _ _ e h' 1%nat rest_30s Hrun eq_refl)
    as (st' & Hst' & _ & _ & _ & Hsame).
  rewrite Hst'. f_equal. apply Hsame.
  intros Hin%list_elem_of_In. cbn in Hin. destruct Hin as [[=]|[]].
Defined.

Lemma constructor_allocates_witness :
  ∃ e h',
    @__init__ elements_runtime spec_collaborators []
      [Tuple [Text "Discharge at 1 C for 1 hour"; Text "Rest for 1 hour"];
       Single (Text "Discharge at 1 C for 1 hour"); Single (Text "Rest for 1 hour")]
      (Some "1 minute") None None None None = Ok (e, h')
    ∧ length h' = 2%nat.
Proof.
  destruct (@__init__ elements_runtime spec_collaborators [] _ _ _ _ _ _)
    as [[e h']|err] eqn:Hrun; [|vm_compute in Hrun; discriminate].
  exists e, h'. split; [reflexivity|].
  rewrite (constructor_allocates _ _ _ _ _ _ _ _ _ Hrun). vm_compute. reflexivity.
Defined.

Lemma distinct_texts_distinct_steps_witness :
  ∃ e h' r1 r2,
    @__init__ elements_runtime spec_collaborators []
      [Single (Text "Rest for 1 hour"); Single (Text "Rest for 60 minutes")]
      (Some "1 minute") None None None None = Ok (e, h')
    ∧ operating_conditions_steps e !! 0%nat = Some r1
    ∧ operating_conditions_steps e !! 1%nat = Some r2
    ∧ r1 ≠ r2.
Proof.
  destruct (@__init__ elements_runtime spec_collaborators [] _ _ _ _ _ _)
    as [[e h']|err] eqn:Hrun; [|vm_compute in Hrun; discriminate].
  destruct (init_run _ _ _ _ _ _ _ _ _ Hrun) as (m & new & _ & Hsteps & _).
  destruct (Forall2_lookup_l _ _ _ 0%nat _ Hsteps eq_refl) as (r1 & Hr1 & _).
  destruct (Forall2_lookup_l _ _ _ 1%nat _ Hsteps eq_refl) as (r2 & Hr2 & _).
  exists e, h', r1, r2. split; [reflexivity|]. do 2 (split; [assumption|]).
  apply (distinct_texts_distinct_steps _ _ _ _ _ _ _ e h' 0%nat 1%nat
           "Rest for 1 hour" "Rest for 60 minutes" r1 r2 Hrun);
    [reflexivity|reflexivity|discriminate|assumption|assumption].
Defined.

Lemma cycle_lengths_sum_witness :
  ∃ e h',
    @__init__ elements_runtime spec_collaborators []
      [Tuple [Text "Discharge at 1 C for 1 hour"; Text "Rest for 1 hour"];
       Single (Text "Rest for 1 hour")]
      (Some "1 minute") None None None None = Ok (e, h')
    ∧ sum_list (cycle_lengths e) = length (operating_conditions_steps e).
Proof.
  destruct (@__init__ elements_runtime spec_collaborators [] _ _ _ _ _ _)
    as [[e h']|err] eqn:Hrun; [|vm_compute in Hrun; discriminate].
  exists e, h'. split; [reflexivity|].
  exact (proj1 (cycle_lengths_sum _ _ _ _ _ _ _ _ _ Hrun)).
Defined.

Lemma first_defaults_stay_witness :
  ∃ e1 h1 e2 h2 st2,
    @__init__ elements_runtime spec_collaborators [current_1A]
      [Single (Prebuilt 0)] (Some "1 minute") None None None None = Ok (e1, h1)
    ∧ @__init__ elements_runtime spec_collaborators h1
        [Single (Prebuilt 0)] (Some "1 hour") (Some (25 # 1)) None None None
      = Ok (e2, h2)
    ∧ h2 !! 0%nat = Some st2
    ∧ Step.period st2 = Some (60 # 1)
    ∧ Step.temperature st2
      = if decide (0%nat ∈ unique_steps e2) then temperature e2 else None.
Proof.
  destruct (@__init__ elements_runtime spec_collaborators [current_1A] _ _ _ _ _ _)
    as [[e1 h1]|err] eqn:Hrun1; [|vm_compute in Hrun1; discriminate].
  destruct (init_succeeds (runtime := elements_runtime)
              (collaborators := spec_collaborators) h1
              [Single (Prebuilt 0)] (Some "1 hour") (Some (25 # 1)) None)
    as [[e2 h2] Hrun2].
  { intros s Hin%list_elem_of_In. cbn in Hin. destruct Hin as [[=]|[]]. }
  { by eexists. } { by eexists. } { by eexists. }
  destruct (init_defaults _ _ _ _ _ _ _ _ _ Hrun1) as (Hp1 & Ht1 & _).
  vm_compute in Hp1. injection Hp1 as Hp1.
  vm_compute in Ht1. injection Ht1 as Ht1.
  destruct (first_defaults_stay _ _ _ _ _ _ _ _ _ _ _ _ _ 0%nat current_1A
              Hrun1 Hrun2) as (st2 & Hst2 & _ & _ & Hperiod & _ & _ & Htemp).
  - vm_compute in Hrun1. injection Hrun1 as <- _.
    refine (bool_decide_unpack _ _). vm_compute. exact I.
  - reflexivity.
  - exists e1, h1, e2, h2, st2. split; [reflexivity|]. split; [exact Hrun2|].
    split; [exact Hst2|]. split.
    + apply Hperiod; [reflexivity|]. symmetry. exact Hp1.
    + apply Htemp; [reflexivity|]. symmetry. exact Ht1.
Defined.

Lemma copy_reproduces_witness :
  ∃ e h' e2 h'',
    @__init__ elements_runtime spec_collaborators [current_1A]
      [Single (Text "Rest for 1 hour"); Single (Prebuilt 0)]
      (Some "1 minute") None None None None = Ok (e, h')
    ∧ @copy elements_runtime spec_collaborators e (h' ++ [rest_30s])%list
      = Ok (e2, h'')
    ∧ operating_conditions_cycles e2 = operating_conditions_cycles e.
Proof.
  destruct (@__init__ elements_runtime spec_collaborators [current_1A] _ _ _ _ _ _)
    as [[e h']|err] eqn:Hrun; [|vm_compute in Hrun; discriminate].
  destruct (init_again _ _ _ _ _ _ _ _ _ (h' ++ [rest_30s])%list Hrun)
    as [[e2 h''] Hagain].
  destruct (init_fields _ _ _ _ _ _ _ _ _ Hrun) as (Hargs & _).
  assert (@copy elements_runtime spec_collaborators e (h' ++ [rest_30s])%list
          = Ok (e2, h'')) as Hcopy by (unfold copy; rewrite Hargs; exact Hagain).
  exists e, h', e2, h''. split; [reflexivity|]. split; [exact Hcopy|].
  exact (proj1 (proj2 (copy_reproduces _ _ _ _ _ _ _ _ _ _ _ _ Hrun eq_refl Hcopy))).
Defined.

Lemma search_tag_never_returns_witness :
  ∃ e h' err,
    @__init__ elements_runtime spec_collaborators [current_1A]
      [Single (Text "Rest for 1 hour [tag1]"); Single (Prebuilt 0)]
      (Some "1 minute") None None None None = Ok (e, h')
    ∧ search_tag e "tag1" = Raise err.
Proof.
  destruct (@__init__ elements_runtime spec_collaborators [current_1A] _ _ _ _ _ _)
    as [[e h']|err] eqn:Hrun; [|vm_compute in Hrun; discriminate].
  destruct (search_tag e "tag1") as [l|err] eqn:Hsearch.
  - exfalso.
    apply (search_tag_never_returns _ _ _ _ _ _ _ e h' 0%nat [] "tag1" Hrun).
    + left. apply list_elem_of_In. cbn. tauto.
    + by exists l.
  - exists e, h', err. split; [reflexivity|exact Hsearch].
Defined.

Lemma equal_instructions_one_step_witness :
  ∃ e h' r,
    @__init__ elements_runtime spec_collaborators [current_1A; current_1A]
      [Single (Prebuilt 0); Single (Prebuilt 1)]
      (Some "1 minute") None None None None = Ok (e, h')
    ∧ operating_conditions_steps e !! 0%nat = Some r
    ∧ operating_conditions_steps e !! 1%nat = Some r.
Proof.
  destruct (@__init__ elements_runtime spec_collaborators _ _ _ _ _ _ _)
    as [[e h']|err] eqn:Hrun; [|vm_compute in Hrun; discriminate].
  destruct (equal_instructions_one_step _ _ _ _ _ _ _ e h' 0%nat 1%nat
              (Prebuilt 0) (Prebuilt 1) Hrun eq_refl eq_refl eq_refl)
    as (r & Hi & Hj & _).
  exists e, h', r. split; [reflexivity|]. split; assumption.
Defined.

Lemma equal_steps_one_kept_witness :
  ∃ e h',
    @__init__ elements_runtime spec_collaborators [rest_1h]
      [Single (Prebuilt 0); Single (Text "Rest for 1 hour")]
      (Some "1 minute") None None None None = Ok (e, h')
    ∧ operating_conditions_steps e = [0; 1]%nat
    ∧ (0%nat ∉ unique_steps e ∨ 1%nat ∉ unique_steps e).
Proof.
  destruct (@__init__ elements_runtime spec_collaborators _ _ _ _ _ _ _)
    as [[e h']|err] eqn:Hrun; [|vm_compute in Hrun; discriminate].
  pose proof Hrun as Hvalues. vm_compute in Hvalues.
  injection Hvalues as He Hh'.
  assert (operating_conditions_steps e = [0; 1]%nat) as Hsteps by (by rewrite <- He).
  exists e, h'. split; [reflexivity|]. split; [exact Hsteps|].
  refine (proj1 (equal_steps_one_kept _ _ _ _ _ _ _ e h' 0%nat 1%nat Hrun _ _ _ _)).
  - rewrite Hsteps. apply list_elem_of_In. cbn. tauto.
  - rewrite Hsteps. apply list_elem_of_In. cbn. tauto.
  - discriminate.
  - by rewrite <- Hh'.
Defined.

Lemma transference_linear_witness :
  ∃ va vb v,
    Transference.electrolyte_transference_number_base_Landesfeind2019
      (1000 # 1) (298 # 1) [1; 2; 3; 4; 5; 6; 7; 8; 9]%Q = Ok va
    ∧ Transference.electrolyte_transference_number_base_Landesfeind2019
        (1000 # 1) (298 # 1) [9; 8; 7; 6; 5; 4; 3; 2; 1]%Q = Ok vb
    ∧ Transference.electrolyte_transference_number_base_Landesfeind2019
        (1000 # 1) (298 # 1)
        (zip_with (λ x y, (2 # 1) * x + y)%Q [1; 2; 3; 4; 5; 6; 7; 8; 9]%Q
                  [9; 8; 7; 6; 5; 4; 3; 2; 1]%Q) = Ok v
    ∧ (v == (2 # 1) * va + vb)%Q.
Proof.
  exact (transference_linear (1000 # 1) (298 # 1) (2 # 1)
           [1; 2; 3; 4; 5; 6; 7; 8; 9]%Q [9; 8; 7; 6; 5; 4; 3; 2; 1]%Q
           eq_refl eq_refl).
Defined.

Lemma search_tag_comma_witness :
  ∃ e h',
    @__init__ elements_runtime spec_collaborators []
      (map (λ cycle, Tuple (map (λ instr, Text (render instr)) cycle))
           three_tagged_cycles)
      (Some "1 minute") None None None None = Ok (e, h')
    ∧ search_tag e "tag1,tag2" = Ok [].
Proof.
  destruct (@__init__ elements_runtime spec_collaborators [] _ _ _ _ _ _)
    as [[e h']|err] eqn:Hrun; [|vm_compute in Hrun; discriminate].
  destruct (init_fields _ _ _ _ _ _ _ _ _ Hrun) as (_ & Hcycles & _).
  destruct (search_tag e "tag1,tag2") as [l|err] eqn:Hsearch.
  - exists e, h'. split; [reflexivity|].
    rewrite <- (search_tag_comma e "tag1,tag2" l eq_refl Hsearch). exact Hsearch.
  - exfalso. unfold search_tag in Hsearch. rewrite Hcycles in Hsearch.
    vm_compute in Hsearch. discriminate.
Defined.
